(** * SlowHull: incremental 3-d convex hull (SlowHull/src/SlowHull.cpp)

    A shallow embedding of the hull builder and of its helpers.  The
    functions are written over an abstract interface for the [float] and
    [double] arithmetic of the source, so that every structural property is
    proved for whatever the arithmetic computes; two instances are given:
    IEEE-754 binary32/binary64 (round to nearest even), on which the code
    is evaluated at concrete inputs, and the real numbers, on which the
    geometric reading of the plane normal is stated. *)

From Stdlib Require Import ZArith Bool Lia Reals Lra Psatz.
From Stdlib Require Import Floats.SpecFloat.
From stdpp Require Import base list.

#[local] Open Scope Z_scope.

(** ** Outcomes

    Indexing a [std::vector] outside its bounds and advancing an iterator of
    an [std::unordered_set] whose element was erased are undefined behaviour
    in the source; the embedding stops there and records which one it was. *)

Inductive fault : Type :=
  | OutOfBounds (i : Z)
  | IteratorInvalidated.

Inductive result (A : Type) : Type :=
  | Ok (a : A)
  | UB (f : fault).
Arguments Ok {A} a.
Arguments UB {A} f.

#[global] Instance result_ret : MRet result := fun _ a => Ok a.
#[global] Instance result_bind : MBind result := fun _ _ k r =>
  match r with
  | Ok a => k a
  | UB f => UB f
  end.

(** [v[i]] for an [int] index. *)
Definition vget {A : Type} (v : list A) (i : Z) : result A :=
  if bool_decide (0 ≤ i)
  then match v !! Z.to_nat i with
       | Some a => Ok a
       | None => UB (OutOfBounds i)
       end
  else UB (OutOfBounds i).

(** [v[i] = a]. *)
Definition vset {A : Type} (v : list A) (i : Z) (a : A) : result (list A) :=
  if bool_decide (0 ≤ i < Z.of_nat (length v))
  then Ok (<[Z.to_nat i := a]> v)
  else UB (OutOfBounds i).

(** A counted loop [for (int i = lo; i < lo + n; i++) body]. *)
Fixpoint for_loop {St : Type} (n : nat) (i : Z)
    (body : Z → St → result St) (s : St) : result St :=
  match n with
  | O => Ok s
  | S n' => s' ← body i s; for_loop n' (i + 1) body s'
  end.

(** ** Index vectors

    The [int] values of the source are indices of points, indices of face
    slots and the sentinel -1; they are taken in [Z], without the
    wrap-around of 32 bits that no index of a vector in memory reaches. *)

Record ivec2 : Type := IVec2 { ex : Z; ey : Z }.
Record ivec3 : Type := IVec3 { ix : Z; iy : Z; iz : Z }.

#[global] Instance ivec2_eq_dec : EqDecision ivec2.
Proof. solve_decision. Defined.
#[global] Instance ivec3_eq_dec : EqDecision ivec3.
Proof. solve_decision. Defined.

(** ** The arithmetic of the source

    [F] stands for [float] (the component type of [glm::vec3] and
    [glm::vec4]) and [D] for [double] (the tolerance and the distances the
    helpers return). *)

Class FloatOps (F D : Type) : Type := {
  f_zero : F;
  f_add : F → F → F;
  f_sub : F → F → F;
  f_mul : F → F → F;
  f_div : F → F → F;
  f_sqrt : F → F;
  f_abs : F → F;
  f_gt : F → F → bool;
  to_double : F → D;
  to_float : D → F;
  d_zero : D;
  d_1em9 : D;
  d_mul : D → D → D;
  d_abs : D → D;
  d_gt : D → D → bool;
  d_le : D → D → bool;
  d_eq : D → D → bool
}.

(** ** The hash set of half edges

    [std::unordered_set] fixes no iteration order, and the hash
    [IVec2Hash] ([(v.y << 16) ^ v.x]) only chooses a bucket: the state of
    the set is the list of its elements in the order a traversal meets
    them, and an insertion may put the new element anywhere and reorder the
    others (rehashing).  Erasing keeps the order of the remaining elements.
    The properties below hold for every such set. *)

Class UnorderedSet : Type := {
  us_insert : ivec2 → list ivec2 → list ivec2;
  us_insert_elem : ∀ e l, e ∈ l → us_insert e l = l;
  us_insert_perm : ∀ e l, e ∉ l → us_insert e l ≡ₚ e :: l
}.

Definition us_erase (e : ivec2) (l : list ivec2) : list ivec2 :=
  filter (λ e', e' ≠ e) l.

(** *** The hash of a half edge (lines 63 to 67)

    [int] is 32 bits wide and [std::size_t] 64.  The indices of points are
    far from the bounds of [int], but the shift of [IVec2Hash] is not: its
    value is written with the wrap-around of 32 bits. *)

Definition wrap32 (z : Z) : Z := (z + 2 ^ 31) mod 2 ^ 32 - 2 ^ 31.

(** [(v.y << 16) ^ v.x], an [int], converted to [std::size_t]. *)
Definition IVec2Hash (v : ivec2) : Z :=
  Z.lxor (wrap32 (Z.shiftl (ey v) 16)) (ex v) mod 2 ^ 64.

Section Hull.
Context {F D : Type} `{!FloatOps F D} `{!UnorderedSet}.

Record vec3 : Type := Vec3 { vx : F; vy : F; vz : F }.
Record vec4 : Type := Vec4 { px : F; py : F; pz : F; pw : F }.

(** *** glm

    The operations of GLM that the source calls, component by component as
    GLM defines them: [dot] adds its three products from left to right,
    [length] is the square root of [dot v v], [distance p0 p1] is
    [length (p1 - p0)], and [glm::vec4()] is the zero vector. *)

Definition sub3 (a b : vec3) : vec3 :=
  Vec3 (f_sub (vx a) (vx b)) (f_sub (vy a) (vy b)) (f_sub (vz a) (vz b)).
Definition scale3 (v : vec3) (s : F) : vec3 :=
  Vec3 (f_mul (vx v) s) (f_mul (vy v) s) (f_mul (vz v) s).
Definition div3 (v : vec3) (s : F) : vec3 :=
  Vec3 (f_div (vx v) s) (f_div (vy v) s) (f_div (vz v) s).
Definition div4 (v : vec4) (s : F) : vec4 :=
  Vec4 (f_div (px v) s) (f_div (py v) s) (f_div (pz v) s) (f_div (pw v) s).
Definition dot (a b : vec3) : F :=
  f_add (f_add (f_mul (vx a) (vx b)) (f_mul (vy a) (vy b)))
        (f_mul (vz a) (vz b)).
Definition cross (a b : vec3) : vec3 :=
  Vec3 (f_sub (f_mul (vy a) (vz b)) (f_mul (vy b) (vz a)))
       (f_sub (f_mul (vz a) (vx b)) (f_mul (vz b) (vx a)))
       (f_sub (f_mul (vx a) (vy b)) (f_mul (vx b) (vy a))).
Definition length3 (v : vec3) : F := f_sqrt (dot v v).
Definition distance (p0 p1 : vec3) : F := length3 (sub3 p1 p0).
Definition abs3 (v : vec3) : vec3 :=
  Vec3 (f_abs (vx v)) (f_abs (vy v)) (f_abs (vz v)).
Definition normal (plane : vec4) : vec3 :=
  Vec3 (px plane) (py plane) (pz plane).

(** *** Geometric primitives (lines 4 to 19) *)

Definition DistanceToVector (pt v : vec3) : D :=
  to_double (length3 (sub3 pt (scale3 v (dot pt v)))).

Definition DistanceToPlane (pt : vec3) (plane : vec4) : D :=
  to_double (f_sub (dot (normal plane) pt) (pw plane)).

Definition PlaneOfPts (a b c : vec3) : vec4 :=
  let crx := cross (sub3 c a) (sub3 b a) in
  let n := length3 crx in
  if d_eq (to_double n) d_zero
  then Vec4 f_zero f_zero f_zero f_zero
  else div4 (Vec4 (vx crx) (vy crx) (vz crx) (dot crx a)) n.

(** *** Seed selection (lines 23 to 61) *)

(** The first loop of [NonCollinearTriple]: [rest] is [pts[i..]]. *)
Fixpoint furthest_from (p0 : vec3) (i : Z) (rest : list vec3)
    (furthest : Z) (dist : F) : Z * F :=
  match rest with
  | [] => (furthest, dist)
  | p :: rest' =>
      let d := to_double (distance p0 p) in
      if d_gt d (to_double dist)
      then furthest_from p0 (i + 1) rest' i (to_float d)
      else furthest_from p0 (i + 1) rest' furthest dist
  end.

(** The second loop of [NonCollinearTriple]. *)
Fixpoint third_from (p0 n : vec3) (i : Z) (rest : list vec3)
    (third : Z) (offset : D) : Z * D :=
  match rest with
  | [] => (third, offset)
  | p :: rest' =>
      let off := DistanceToVector (sub3 p p0) n in
      if d_gt off offset
      then third_from p0 n (i + 1) rest' i off
      else third_from p0 n (i + 1) rest' third offset
  end.

Definition NonCollinearTriple (pts : list vec3) (precision : D)
    : result ivec3 :=
  p0 ← vget pts 0;
  p1 ← vget pts 1;
  let '(furthest, dist) :=
    furthest_from p0 2 (drop 2 pts) 1 (distance p0 p1) in
  if d_le (to_double dist) precision
  then Ok (IVec3 (-1) (-1) (-1))
  else
    pf ← vget pts furthest;
    let n := div3 (sub3 p0 pf) dist in
    let '(third, _) :=
      third_from p0 n 1 (drop 1 pts) (-1)
                 (d_mul (to_double dist) precision) in
    if bool_decide (third < 0)
    then Ok (IVec3 (-1) (-1) (-1))
    else Ok (IVec3 0 furthest third).

Fixpoint NonCoplanar_from (i : Z) (rest : list vec3) (plane : vec4)
    (precision : D) : Z * bool :=
  match rest with
  | [] => (-1, false)
  | p :: rest' =>
      let dist := DistanceToPlane p plane in
      if d_gt (d_abs dist) precision
      then (i, d_gt dist precision)
      else NonCoplanar_from (i + 1) rest' plane precision
  end.

Definition NonCoplanar (pts : list vec3) (plane : vec4) (precision : D)
    : Z * bool :=
  NonCoplanar_from 0 pts plane precision.

(** *** The face table (lines 83 to 87)

    [dropped] is a vector used as a stack: its back is the end of the
    list. *)

Record FaceTable : Type := MkTable {
  triangles : list ivec3;
  planes : list vec4;
  dropped : list Z;
  kept : list bool
}.

Definition empty_table : FaceTable := MkTable [] [] [] [].

(** The lambda [AddTri] of [Hull] (lines 88 to 103). *)
Definition AddTri (pts : list vec3) (a b c : Z) (st : FaceTable)
    : result FaceTable :=
  let tri := IVec3 c b a in
  pa ← vget pts a;
  pb ← vget pts b;
  pc ← vget pts c;
  let plane := PlaneOfPts pa pb pc in
  match last (dropped st) with
  | Some idx =>
      ts ← vset (triangles st) idx tri;
      ps ← vset (planes st) idx plane;
      ks ← vset (kept st) idx true;
      Ok (MkTable ts ps (removelast (dropped st)) ks)
  | None =>
      Ok (MkTable (triangles st ++ [tri]) (planes st ++ [plane])
                  (dropped st) (kept st ++ [true]))
  end.

(** The body of the conflict scan (lines 114 to 121), for face slot [j]
    and point [i]. *)
Definition scan_face (pts : list vec3) (precision : D) (i : Z) (j : Z)
    (s : FaceTable * list ivec2) : result (FaceTable * list ivec2) :=
  let '(st, halfEdges) := s in
  k ← vget (kept st) j;
  if negb k then Ok (st, halfEdges)
  else
    p ← vget pts i;
    pl ← vget (planes st) j;
    if d_gt (DistanceToPlane p pl) precision
    then
      t ← vget (triangles st) j;
      let h1 := us_insert (IVec2 (ix t) (iz t)) halfEdges in
      let h2 := us_insert (IVec2 (iz t) (iy t)) h1 in
      let h3 := us_insert (IVec2 (iy t) (ix t)) h2 in
      ks ← vset (kept st) j false;
      Ok (MkTable (triangles st) (planes st) (dropped st ++ [j]) ks, h3)
    else Ok (st, halfEdges).

Definition scan (pts : list vec3) (precision : D) (i : Z)
    (s : FaceTable * list ivec2) : result (FaceTable * list ivec2) :=
  for_loop (length (triangles (fst s))) 0 (scan_face pts precision i) s.

(** The loop over the half edges (lines 125 to 128).  [work] is what the
    traversal has still to visit, in the order fixed when it started;
    [cur] is the set as the erasures have left it.  An element erased
    before the traversal reaches it is not visited; erasing the element
    under the iterator, which happens for an edge [(u, u)], invalidates
    the iterator that the loop then advances. *)
Fixpoint horizon (pts : list vec3) (i : Z) (work cur : list ivec2)
    (st : FaceTable) : result (FaceTable * list ivec2) :=
  match work with
  | [] => Ok (st, cur)
  | e :: work' =>
      if bool_decide (e ∈ cur)
      then
        let r := IVec2 (ey e) (ex e) in
        if bool_decide (r = e) then UB IteratorInvalidated
        else if bool_decide (r ∈ cur)
        then horizon pts i work' (us_erase r cur) st
        else st' ← AddTri pts (ex e) (ey e) i st;
             horizon pts i work' cur st'
      else horizon pts i work' cur st
  end.

(** One iteration of the loop over the points (lines 109 to 129). *)
Definition add_point (pts : list vec3) (precision : D) (a b c d : Z)
    (i : Z) (s : FaceTable * list ivec2) : result (FaceTable * list ivec2) :=
  if bool_decide (i = a ∨ i = b ∨ i = c ∨ i = d) then Ok s
  else
    '(st, halfEdges) ← scan pts precision i s;
    '(st', _) ← horizon pts i halfEdges halfEdges st;
    Ok (st', []).

(** The last loop of [Hull] (lines 133 to 137): the live triangles, by
    increasing slot. *)
Definition collect_face (st : FaceTable) (i : Z) (out : list ivec3)
    : result (list ivec3) :=
  k ← vget (kept st) i;
  if negb k then Ok out
  else t ← vget (triangles st) i; Ok (out ++ [t]).

Definition collect (st : FaceTable) : result (list ivec3) :=
  for_loop (length (triangles st)) 0 (collect_face st) [].

(** The seed tetrahedron, lines 75 to 82 of the source: [None] when
    [NonCoplanar] finds no fourth point. *)
Definition seed (pts : list vec3) (precision : D)
    : result (option (Z * Z * Z * Z)) :=
  trip ← NonCollinearTriple pts precision;
  pa ← vget pts (ix trip);
  pb ← vget pts (iy trip);
  pc ← vget pts (iz trip);
  let plane := PlaneOfPts pa pb pc in
  let '(d, dIsAboveTrip) := NonCoplanar pts plane precision in
  if bool_decide (d < 0) then Ok None
  else
    let a := ix trip in
    let b := if dIsAboveTrip then iz trip else iy trip in
    let c := if dIsAboveTrip then iy trip else iz trip in
    Ok (Some (a, b, c, d)).

(** The face table when the loop over the points has ended; [None] on the
    two paths that return the empty vector before building anything. *)
Definition HullTable (pts : list vec3) (precision : D)
    : result (option FaceTable) :=
  let len := Z.of_nat (length pts) in
  if bool_decide (len < 4) then Ok None
  else
    sd ← seed pts precision;
    match sd with
    | None => Ok None
    | Some (a, b, c, d) =>
        st ← AddTri pts a b c empty_table;
        st ← AddTri pts d b a st;
        st ← AddTri pts c d a st;
        st ← AddTri pts b d c st;
        '(st, _) ← for_loop (length pts) 0
                      (add_point pts precision a b c d) (st, []);
        Ok (Some st)
    end.

Definition Hull (pts : list vec3) (precision : D) : result (list ivec3) :=
  tb ← HullTable pts precision;
  match tb with
  | None => Ok []
  | Some st => collect st
  end.

(** The one-argument overload (lines 141 to 153) and its loop. *)
Fixpoint scale_from (rest : list vec3) (scale : F) : F :=
  match rest with
  | [] => scale
  | p :: rest' =>
      let abs := abs3 p in
      let scale := if f_gt (vx abs) scale then vx abs else scale in
      let scale := if f_gt (vy abs) scale then vy abs else scale in
      let scale := if f_gt (vz abs) scale then vz abs else scale in
      scale_from rest' scale
  end.

Definition Hull_pts (pts : list vec3) : result (list ivec3) :=
  Hull pts (d_mul d_1em9 (to_double (scale_from pts f_zero))).

End Hull.


Arguments vec3 F : clear implicits.
Arguments vec4 F : clear implicits.
Arguments FaceTable F : clear implicits.

(** ** Vocabulary of the statements *)

Definition rev_edge (e : ivec2) : ivec2 := IVec2 (ey e) (ex e).

(** The three half edges the conflict scan records for a dropped face. *)
Definition face_edges (t : ivec3) : list ivec2 :=
  [IVec2 (ix t) (iz t); IVec2 (iz t) (iy t); IVec2 (iy t) (ix t)].

(** The half edges whose reverse was not collected. *)
Definition horizon_edges (S : list ivec2) : list ivec2 :=
  filter (λ e, rev_edge e ∉ S) S.

Definition valid_tri (len : Z) (t : ivec3) : Prop :=
  (0 ≤ ix t < len) ∧ (0 ≤ iy t < len) ∧ (0 ≤ iz t < len).

Definition distinct_tri (t : ivec3) : Prop :=
  ix t ≠ iy t ∧ iy t ≠ iz t ∧ ix t ≠ iz t.

Definition distinct_seed (a b c d : Z) : Prop :=
  a ≠ b ∧ a ≠ c ∧ a ≠ d ∧ b ≠ c ∧ b ≠ d ∧ c ≠ d.

(** A vertex that is a seed point or a point already processed. *)
Definition known (a b c d k : Z) (v : Z) : Prop :=
  v = a ∨ v = b ∨ v = c ∨ v = d ∨ v < k.

Definition sound_tri (a b c d k : Z) (t : ivec3) : Prop :=
  distinct_tri t ∧
  known a b c d k (ix t) ∧ known a b c d k (iy t) ∧ known a b c d k (iz t).

Section Vocabulary.
Context {F D : Type} `{!FloatOps F D} `{!UnorderedSet}.

(** One update [if (v > scale) scale = v] of the one-argument overload. *)
Definition raise (v scale : F) : F := if f_gt v scale then v else scale.

(** The triangles of the live slots, by increasing slot. *)
Definition live (st : FaceTable F) : list ivec3 :=
  (filter (λ tk, tk.2 = true) (zip (triangles st) (kept st))).*1.

(** The three vectors are parallel and [dropped] lists the dead slots,
    each once. *)
Definition wf (st : FaceTable F) : Prop :=
  length (planes st) = length (triangles st) ∧
  length (kept st) = length (triangles st) ∧
  NoDup (dropped st) ∧
  ∀ j : Z, j ∈ dropped st ↔ vget (kept st) j = Ok false.

(** Slot [j] holds a face whose plane was computed from its vertices in
    the reverse of the order in which the triangle lists them. *)
Definition plane_of_slot (pts : list (vec3 F)) (t : ivec3) (pl : vec4 F)
    : Prop :=
  ∃ pa pb pc,
    vget pts (iz t) = Ok pa ∧ vget pts (iy t) = Ok pb ∧
    vget pts (ix t) = Ok pc ∧ pl = PlaneOfPts pa pb pc.

(** Face slot [j] is in conflict with point [i]. *)
Definition conflict (pts : list (vec3 F)) (precision : D) (i : Z)
    (st : FaceTable F) (j : Z) : Prop :=
  ∃ p pl,
    vget (kept st) j = Ok true ∧ vget pts i = Ok p ∧
    vget (planes st) j = Ok pl ∧
    d_gt (DistanceToPlane p pl) precision = true.

(** One [AddTri (u, v, i)] for each edge of a list, in order. *)
Fixpoint add_faces (pts : list (vec3 F)) (i : Z) (es : list ivec2)
    (st : FaceTable F) : result (FaceTable F) :=
  match es with
  | [] => Ok st
  | e :: es' =>
      st' ← AddTri pts (ex e) (ey e) i st; add_faces pts i es' st'
  end.

(** Loop invariant of the scan after the slots below [k]. *)
Definition scanned (pts : list (vec3 F)) (precision : D) (i : Z)
    (st : FaceTable F) (h : list ivec2) (k : Z)
    (s : FaceTable F * list ivec2) : Prop :=
  triangles s.1 = triangles st ∧
  planes s.1 = planes st ∧
  (∀ j, k ≤ j → vget (kept s.1) j = vget (kept st) j) ∧
  (∀ j, j < k →
     vget (kept s.1) j = Ok true ↔
     vget (kept st) j = Ok true ∧ ¬ conflict pts precision i st j) ∧
  (NoDup h → NoDup s.2) ∧
  (∀ e, e ∈ s.2 ↔
     e ∈ h ∨ ∃ j t, j < k ∧ conflict pts precision i st j ∧
                    vget (triangles st) j = Ok t ∧ e ∈ face_edges t).

(** The states of the face table during a call of [Hull]: it starts
    empty and is changed by [AddTri] and by the conflict scan only. *)
Inductive reachable (pts : list (vec3 F)) (precision : D)
    : FaceTable F → Prop :=
  | reach_empty : reachable pts precision empty_table
  | reach_add a b c st st' :
      reachable pts precision st →
      AddTri pts a b c st = Ok st' →
      reachable pts precision st'
  | reach_scan i j st h st' h' :
      reachable pts precision st →
      scan_face pts precision i j (st, h) = Ok (st', h') →
      reachable pts precision st'.

(** *** The properties in the words of the specification *)

(** Seed selection fails: fewer than four points, no non-collinear
    triple, or no point off the plane of the triple. *)
Definition degenerate (pts : list (vec3 F)) (precision : D) : Prop :=
  Z.of_nat (length pts) < 4 ∨
  NonCollinearTriple pts precision = Ok (IVec3 (-1) (-1) (-1)) ∨
  seed pts precision = Ok None.

(** "Empty exactly for a degenerate input; an input that passes seed
    selection gives a non-empty result." *)
Definition empty_iff_degenerate (pts : list (vec3 F)) (precision : D)
    : Prop :=
  (Hull pts precision = Ok [] ↔ degenerate pts precision) ∧
  (4 ≤ Z.of_nat (length pts) →
   ∀ s, seed pts precision = Ok (Some s) →
        ∃ out, Hull pts precision = Ok out ∧ out ≠ []).

(** "No input point is in front of the plane of an output triangle by
    more than the tolerance." *)
Definition output_convex (pts : list (vec3 F)) (precision : D) : Prop :=
  ∀ out t pa pb pc p,
    Hull pts precision = Ok out → t ∈ out →
    vget pts (iz t) = Ok pa → vget pts (iy t) = Ok pb →
    vget pts (ix t) = Ok pc → p ∈ pts →
    d_gt (DistanceToPlane p (PlaneOfPts pa pb pc)) precision = false.

(** "The set of half edges never holds an edge together with its
    reverse", at the end of a conflict scan. *)
Definition no_reverse_pairs (pts : list (vec3 F)) (precision : D) : Prop :=
  ∀ i st st' S,
    reachable pts precision st →
    scan pts precision i (st, []) = Ok (st', S) →
    ∀ e, e ∈ S → rev_edge e ∉ S.

(** "Every output triangle has three different, valid vertex indices." *)
Definition output_distinct (pts : list (vec3 F)) (precision : D) : Prop :=
  ∀ out t,
    Hull pts precision = Ok out → t ∈ out →
    distinct_tri t ∧ valid_tri (Z.of_nat (length pts)) t.

End Vocabulary.

(** ** Vocabulary of the further properties *)

Section Faces.
Context {F D : Type} `{!FloatOps F D}.
Implicit Types (st : FaceTable F) (pts : list (vec3 F)) (t : ivec3).

(** The point [pts[i]], for an index inside the sequence. *)
Definition point_at pts (i : Z) : vec3 F :=
  default (Vec3 f_zero f_zero f_zero) (pts !! Z.to_nat i).

(** The plane that [AddTri] stores with the triangle [t]. *)
Definition plane_for pts t : vec4 F :=
  PlaneOfPts (point_at pts (iz t)) (point_at pts (iy t))
             (point_at pts (ix t)).

(** The test of line 114 for point [i] and a face with triangle [t]. *)
Definition sees pts (precision : D) (i : Z) t : bool :=
  d_gt (DistanceToPlane (point_at pts i) (plane_for pts t)) precision.


End Faces.

(** ** IEEE-754 arithmetic: [float] is binary32, [double] is binary64

    The operations are those of the specification of IEEE-754 arithmetic
    in the standard library ([Floats.SpecFloat]), rounding to nearest with
    ties to even, at precision 24 and 53. *)

Module IEEE.

Definition f32_add := SFadd 24 128.
Definition f32_sub := SFsub 24 128.
Definition f32_mul := SFmul 24 128.
Definition f32_div := SFdiv 24 128.
Definition f32_sqrt := SFsqrt 24 128.
Definition f64_mul := SFmul 53 1024.

(** The value [m * 2^e], rounded to the format. *)
Definition f32 (m e : Z) : spec_float := binary_normalize 24 128 m e false.
Definition f64 (m e : Z) : spec_float := binary_normalize 53 1024 m e false.

(** Conversions between the two formats: the value is kept and the
    mantissa is brought to the width of the target format, with rounding
    when a [double] is narrowed. *)
Definition convert (prec emax : Z) (x : spec_float) : spec_float :=
  match x with
  | S754_finite s m e => binary_normalize prec emax (cond_Zopp s (Zpos m)) e s
  | _ => x
  end.

Definition gt (a b : spec_float) : bool := SFltb b a.

#[global] Instance ops : FloatOps spec_float spec_float := {|
  f_zero := S754_zero false;
  f_add := f32_add;
  f_sub := f32_sub;
  f_mul := f32_mul;
  f_div := f32_div;
  f_sqrt := f32_sqrt;
  f_abs := SFabs;
  f_gt := gt;
  to_double := convert 53 1024;
  to_float := convert 24 128;
  d_zero := S754_zero false;
  d_1em9 := SFdiv 53 1024 (f64 1 0) (f64 1000000000 0);
  d_mul := f64_mul;
  d_abs := SFabs;
  d_gt := gt;
  d_le := SFleb;
  d_eq := SFeqb
|}.

(** The point [(x, y, z) * 2^e]. *)
Definition pt (e : Z) (x y z : Z) : vec3 spec_float :=
  Vec3 (f32 x e) (f32 y e) (f32 z e).

(** The order of two finite numbers of the same sign, as [SFcompare]
    computes it from their exponents and mantissas. *)
Definition lex (e1 : Z) (m1 : positive) (e2 : Z) (m2 : positive)
    : comparison :=
  match Z.compare e1 e2 with
  | Lt => Lt
  | Gt => Gt
  | Eq => Pos.compare_cont Eq m1 m2
  end.

(** A zero or a NaN: the values that the arithmetic gives to the plane of
    a face with a repeated vertex. *)
Definition zn (x : spec_float) : Prop :=
  match x with
  | S754_zero _ | S754_nan => True
  | _ => False
  end.

Definition zn3 (v : vec3 spec_float) : Prop :=
  zn (vx v) ∧ zn (vy v) ∧ zn (vz v).

Definition zn4 (p : vec4 spec_float) : Prop :=
  zn (px p) ∧ zn (py p) ∧ zn (pz p) ∧ zn (pw p).

(** "The two in-plane indices are swapped exactly when the fourth point
    is behind the plane of the triple, at a signed distance below minus
    the tolerance." *)
Definition swapped_iff_behind
    (pts : list (vec3 spec_float)) (precision : spec_float) : Prop :=
  ∀ trip a b c d pa pb pc pd,
    NonCollinearTriple pts precision = Ok trip →
    seed pts precision = Ok (Some (a, b, c, d)) →
    vget pts (ix trip) = Ok pa → vget pts (iy trip) = Ok pb →
    vget pts (iz trip) = Ok pc → vget pts d = Ok pd →
    (b = iz trip ∧ c = iy trip) ↔
    SFltb (DistanceToPlane pd (PlaneOfPts pa pb pc)) (SFopp precision)
      = true.

End IEEE.

(** ** Inputs on which the code is evaluated *)

Module Inputs.
Import IEEE.

Definition zero : spec_float := f64 0 0.
Definition quarter : spec_float := f64 1 (-2).
Definition eighth : spec_float := f64 1 (-3).

(** A tetrahedron on the axes, and the same with a fifth point in front
    of two of its faces. *)
Definition tetra4 : list (vec3 spec_float) :=
  [pt 0 0 0 0; pt 0 4 0 0; pt 0 0 4 0; pt 0 0 0 4].
Definition notch : list (vec3 spec_float) :=
  tetra4 ++ [pt 0 (-1) (-1) 1].

(** Degenerate inputs. *)
Definition short3 : list (vec3 spec_float) :=
  [pt 0 0 0 0; pt 0 4 0 0; pt 0 0 4 0].
Definition square4 : list (vec3 spec_float) :=
  [pt 0 0 0 0; pt 0 4 0 0; pt 0 0 4 0; pt 0 4 4 0].
Definition collinear4 : list (vec3 spec_float) :=
  [pt 0 0 0 0; pt 0 1 0 0; pt 0 2 0 0; pt 0 3 0 0].
Definition coincident4 : list (vec3 spec_float) :=
  [pt 0 1 1 1; pt 0 1 1 1; pt 0 1 1 1; pt 0 1 1 1].
Definition origin4 : list (vec3 spec_float) :=
  [pt 0 0 0 0; pt 0 0 0 0; pt 0 0 0 0; pt 0 0 0 0].

(** Five points of the plane [z = 2x - 3y]. *)
Definition coplanar5 : list (vec3 spec_float) :=
  [pt 0 (-2) 1 (-7); pt 0 3 0 6; pt 0 (-1) (-3) 7; pt 0 (-2) (-1) (-1);
   pt 0 2 1 1].

(** A tetrahedron whose first point is at distance [2^-24], not 0, from
    the plane computed through it. *)
Definition skew4 : list (vec3 spec_float) :=
  [pt 0 1 1 1; pt 0 (-1) 0 0; pt 0 0 (-1) 0; pt 0 0 1 1].

(** A tetrahedron with a flat top face [(2, 3, 0)] and a fifth point
    [(1/4, 0, 1/16)] just above that face and beyond its edge [(2, 3)]. *)
Definition lever : list (vec3 spec_float) :=
  [pt 0 (-10) 0 0; pt 0 0 0 (-10); pt 0 0 (-10) 0; pt 0 0 10 0;
   pt (-4) 4 0 1].

End Inputs.

(** The points of the claims with a point inside the tetrahedron. *)

Module InnerPoint.
Import IEEE Inputs.

(** The tetrahedron on the axes with a fifth point inside it. *)
Definition inside5 : list (vec3 spec_float) := tetra4 ++ [pt 0 1 1 1].

End InnerPoint.

(** ** Exact arithmetic: both types are the real numbers *)

Module Exact.

Definition gt (a b : R) : bool := if Rlt_dec b a then true else false.
Definition le (a b : R) : bool := if Rle_dec a b then true else false.
Definition eq (a b : R) : bool := if Req_dec_T a b then true else false.

#[global] Instance ops : FloatOps R R := {|
  f_zero := 0%R;
  f_add := Rplus;
  f_sub := Rminus;
  f_mul := Rmult;
  f_div := Rdiv;
  f_sqrt := sqrt;
  f_abs := Rabs;
  f_gt := gt;
  to_double := λ x, x;
  to_float := λ x, x;
  d_zero := 0%R;
  d_1em9 := (1 / 1000000000)%R;
  d_mul := Rmult;
  d_abs := Rabs;
  d_gt := gt;
  d_le := le;
  d_eq := eq
|}.

End Exact.

(** ** Inputs in exact arithmetic *)

Module ExactInputs.
#[local] Open Scope R_scope.

Definition e1 : vec3 R := Vec3 1 0 0.
Definition e2 : vec3 R := Vec3 0 1 0.
Definition e3 : vec3 R := Vec3 0 0 1.

End ExactInputs.

(** ** Exact arithmetic: moving the points *)

Section Motion.
#[local] Open Scope R_scope.




End Motion.

(** ** A hash set that is traversed in insertion order *)

Definition insert_back (e : ivec2) (l : list ivec2) : list ivec2 :=
  if bool_decide (e ∈ l) then l else l ++ [e].

#[global] Program Instance fifo_set : UnorderedSet :=
  {| us_insert := insert_back |}.
Next Obligation.
  intros e l He. unfold insert_back. by rewrite bool_decide_eq_true_2.
Qed.
Next Obligation.
  intros e l He. unfold insert_back. rewrite bool_decide_eq_false_2 by done.
  by rewrite Permutation_app_comm.
Qed.

(** ** A hash set that is traversed in the reverse of the insertion order *)

Definition insert_front (e : ivec2) (l : list ivec2) : list ivec2 :=
  if bool_decide (e ∈ l) then l else e :: l.

Program Definition lifo_set : UnorderedSet :=
  {| us_insert := insert_front |}.
Next Obligation.
  intros e l He. unfold insert_front. by rewrite bool_decide_eq_true_2.
Qed.
Next Obligation.
  intros e l He. unfold insert_front. by rewrite bool_decide_eq_false_2.
Qed.

(** * Properties *)

(** ** The outcome monad, vectors and counted loops *)

Lemma bind_Ok {A B : Type} (r : result A) (k : A → result B) (b : B) :
  r ≫= k = Ok b → ∃ a, r = Ok a ∧ k a = Ok b.
Proof. destruct r as [a|f]; simpl; [eauto | discriminate]. Qed.

Lemma vget_Ok {A : Type} (v : list A) (i : Z) (a : A) :
  vget v i = Ok a ↔ 0 ≤ i ∧ v !! Z.to_nat i = Some a.
Proof.
  unfold vget. case_bool_decide as Hi.
  - destruct (v !! Z.to_nat i) as [a'|]; split.
    + intros [= ->]. done.
    + intros [_ [= ->]]. done.
    + discriminate.
    + intros [_ ?]. discriminate.
  - split; [discriminate | intros [? _]; lia].
Qed.

Lemma vget_range {A : Type} (v : list A) (i : Z) (a : A) :
  vget v i = Ok a → 0 ≤ i < Z.of_nat (length v).
Proof.
  intros [Hi Hl]%vget_Ok. apply lookup_lt_Some in Hl. lia.
Qed.

Lemma vget_elem_of {A : Type} (v : list A) (i : Z) (a : A) :
  vget v i = Ok a → a ∈ v.
Proof. intros [_ Hl]%vget_Ok. by eapply list_elem_of_lookup_2. Qed.

Lemma vget_total {A : Type} (v : list A) (i : Z) :
  0 ≤ i < Z.of_nat (length v) → ∃ a, vget v i = Ok a.
Proof.
  intros Hi. destruct (lookup_lt_is_Some_2 v (Z.to_nat i)) as [a Ha]; [lia|].
  exists a. apply vget_Ok. split; [lia | done].
Qed.

Lemma vset_Ok {A : Type} (v v' : list A) (i : Z) (a : A) :
  vset v i a = Ok v' ↔
  0 ≤ i < Z.of_nat (length v) ∧ v' = <[Z.to_nat i := a]> v.
Proof.
  unfold vset. case_bool_decide as Hi; split.
  - intros [= <-]. done.
  - intros [_ ->]. done.
  - discriminate.
  - intros [? _]. done.
Qed.

Lemma vget_insert_eq {A : Type} (v : list A) (i : Z) (a : A) :
  0 ≤ i < Z.of_nat (length v) → vget (<[Z.to_nat i := a]> v) i = Ok a.
Proof.
  intros Hi. apply vget_Ok. split; [lia|].
  apply list_lookup_insert_eq. lia.
Qed.

Lemma vget_insert_ne {A : Type} (v : list A) (i j : Z) (a : A) :
  0 ≤ i → i ≠ j → vget (<[Z.to_nat i := a]> v) j = vget v j.
Proof.
  intros Hi Hne. unfold vget. case_bool_decide as Hj; [|done].
  rewrite list_lookup_insert_ne by lia. done.
Qed.

Lemma vget_snoc {A : Type} (v : list A) (j : Z) (a b : A) :
  vget (v ++ [a]) j = Ok b ↔
  vget v j = Ok b ∨ (j = Z.of_nat (length v) ∧ b = a).
Proof.
  rewrite !vget_Ok. split.
  - intros [Hj Hl]. apply lookup_app_Some in Hl as [Hl | [Hlen Hl]].
    + left. done.
    + right. apply list_lookup_singleton_Some in Hl as [Hz ->].
      split; [lia | done].
  - intros [[Hj Hl] | [-> ->]].
    + split; [done|]. by apply lookup_app_l_Some.
    + split; [lia|]. rewrite Nat2Z.id. apply list_lookup_middle. done.
Qed.

Lemma for_loop_inv {St : Type} (P : Z → St → Prop)
    (body : Z → St → result St) (n : nat) :
  ∀ (i : Z) (s s' : St),
    P i s →
    (∀ k t t', i ≤ k < i + Z.of_nat n → P k t → body k t = Ok t' →
               P (k + 1) t') →
    for_loop n i body s = Ok s' →
    P (i + Z.of_nat n) s'.
Proof.
  induction n as [|n IH]; intros i s s' HP Hstep Hrun; simpl in Hrun.
  - injection Hrun as <-. by rewrite Z.add_0_r.
  - apply bind_Ok in Hrun as (t & Hb & Hrun).
    replace (i + Z.of_nat (S n)) with ((i + 1) + Z.of_nat n) by lia.
    eapply IH; [| |exact Hrun].
    + eapply Hstep; [|exact HP|exact Hb]. lia.
    + intros k u u' Hk. apply Hstep. lia.
Qed.

(** Inversion of the successful runs of the monadic definitions. *)
Ltac inv_ok :=
  repeat match goal with
  | H : _ ≫= _ = Ok _ |- _ =>
      let a := fresh "a" in
      let Ha := fresh "Ha" in
      apply bind_Ok in H as (a & Ha & H)
  | H : Ok _ = Ok _ |- _ => injection H as H
  | H : UB _ = Ok _ |- _ => discriminate H
  | H : mret _ = Ok _ |- _ => injection H as H
  end.

(** ** The face table: [AddTri] and the conflict scan *)

Section Table.
Context {F D : Type} `{!FloatOps F D} `{!UnorderedSet}.
Implicit Types (st : FaceTable F) (pts : list (vec3 F)) (h : list ivec2).

(** What a successful [AddTri] did: it wrote the slot on top of [dropped]
    or, when [dropped] was empty, it grew the three vectors by one. *)
Lemma AddTri_inv pts a b c st st' :
  AddTri pts a b c st = Ok st' →
  ∃ pa pb pc,
    vget pts a = Ok pa ∧ vget pts b = Ok pb ∧ vget pts c = Ok pc ∧
    ((∃ ds idx,
        dropped st = ds ++ [idx] ∧
        0 ≤ idx < Z.of_nat (length (triangles st)) ∧
        0 ≤ idx < Z.of_nat (length (planes st)) ∧
        0 ≤ idx < Z.of_nat (length (kept st)) ∧
        st' = MkTable (<[Z.to_nat idx := IVec3 c b a]> (triangles st))
                      (<[Z.to_nat idx := PlaneOfPts pa pb pc]> (planes st))
                      ds
                      (<[Z.to_nat idx := true]> (kept st)))
     ∨ (dropped st = [] ∧
        st' = MkTable (triangles st ++ [IVec3 c b a])
                      (planes st ++ [PlaneOfPts pa pb pc])
                      []
                      (kept st ++ [true]))).
Proof.
  unfold AddTri. intros Hrun.
  apply bind_Ok in Hrun as (pa & Hpa & Hrun).
  apply bind_Ok in Hrun as (pb & Hpb & Hrun).
  apply bind_Ok in Hrun as (pc & Hpc & Hrun).
  exists pa, pb, pc. do 3 (split; [done|]).
  destruct (last (dropped st)) as [idx|] eqn:Hlast.
  - left. apply last_Some in Hlast as [ds Hds].
    apply bind_Ok in Hrun as (ts & [Hi1 ->]%vset_Ok & Hrun).
    apply bind_Ok in Hrun as (ps & [Hi2 ->]%vset_Ok & Hrun).
    apply bind_Ok in Hrun as (ks & [Hi3 ->]%vset_Ok & Hrun).
    exists ds, idx. rewrite Hds, removelast_last in Hrun.
    injection Hrun as <-. done.
  - right. apply last_None in Hlast.
    rewrite Hlast in Hrun. injection Hrun as <-. done.
Qed.

(** What one step of the conflict scan did. *)
Lemma scan_face_inv pts precision i j st h st' h' :
  scan_face pts precision i j (st, h) = Ok (st', h') →
  (st' = st ∧ h' = h ∧ ¬ conflict pts precision i st j)
  ∨ (∃ t,
       conflict pts precision i st j ∧
       vget (triangles st) j = Ok t ∧
       0 ≤ j < Z.of_nat (length (kept st)) ∧
       st' = MkTable (triangles st) (planes st) (dropped st ++ [j])
                     (<[Z.to_nat j := false]> (kept st)) ∧
       h' = us_insert (IVec2 (iy t) (ix t))
              (us_insert (IVec2 (iz t) (iy t))
                 (us_insert (IVec2 (ix t) (iz t)) h))).
Proof.
  unfold scan_face. intros Hrun.
  apply bind_Ok in Hrun as (k & Hk & Hrun).
  destruct k; simpl in Hrun.
  - apply bind_Ok in Hrun as (p & Hp & Hrun).
    apply bind_Ok in Hrun as (pl & Hpl & Hrun).
    destruct (d_gt (DistanceToPlane p pl) precision) eqn:Hgt.
    + right.
      apply bind_Ok in Hrun as (t & Ht & Hrun).
      apply bind_Ok in Hrun as (ks & [Hj ->]%vset_Ok & Hrun).
      injection Hrun as <- <-.
      exists t. split; [by exists p, pl|]. done.
    + left. injection Hrun as <- <-. do 2 (split; [done|]).
      intros (p' & pl' & _ & Hp' & Hpl' & Hgt'). congruence.
  - left. injection Hrun as <- <-. do 2 (split; [done|]).
    intros (p' & pl' & Hk' & _). congruence.
Qed.

Lemma wf_empty : wf (empty_table (F := F)).
Proof.
  unfold wf, empty_table; simpl. repeat split; try done.
  - constructor.
  - intros Hj. by apply elem_of_nil in Hj.
  - intros Hj%vget_range. simpl in Hj. lia.
Qed.

Lemma AddTri_wf pts a b c st st' :
  wf st → AddTri pts a b c st = Ok st' → wf st'.
Proof.
  intros (Hp & Hk & Hnd & Hdr) Hrun.
  apply AddTri_inv in Hrun as (pa & pb & pc & _ & _ & _ & Hcase).
  destruct Hcase as [(ds & idx & Hds & Hi1 & Hi2 & Hi3 & ->) | [Hnil ->]].
  - unfold wf; simpl. rewrite !length_insert. do 2 (split; [done|]).
    rewrite Hds in Hnd, Hdr. apply NoDup_app in Hnd as (Hnd & Hnin & _).
    split; [done|]. intros j. split.
    + intros Hj. assert (j ≠ idx) as Hne.
      { intros ->. apply (Hnin idx Hj). by apply list_elem_of_singleton. }
      rewrite vget_insert_ne by lia. apply Hdr.
      apply elem_of_app. by left.
    + intros Hj. destruct (decide (j = idx)) as [->|Hne].
      * rewrite vget_insert_eq in Hj by lia. discriminate.
      * rewrite vget_insert_ne in Hj by lia.
        apply Hdr, elem_of_app in Hj as [Hj | Hj]; [done|].
        by apply list_elem_of_singleton in Hj.
  - unfold wf; simpl. rewrite !length_app; simpl.
    split; [lia|]. split; [lia|]. split; [constructor|].
    rewrite Hnil in Hdr. intros j. split.
    + intros Hj. by apply elem_of_nil in Hj.
    + intros Hj. apply vget_snoc in Hj as [Hj | [_ ?]]; [|done].
      by apply Hdr in Hj.
Qed.

Lemma scan_face_wf pts precision i j st h st' h' :
  wf st → scan_face pts precision i j (st, h) = Ok (st', h') → wf st'.
Proof.
  intros (Hp & Hk & Hnd & Hdr) Hrun.
  apply scan_face_inv in Hrun
    as [(-> & _ & _) | (t & Hc & _ & Hj & -> & _)]; [done|].
  destruct Hc as (p & pl & Hkj & _).
  unfold wf; simpl. rewrite length_insert. do 2 (split; [done|]).
  assert (j ∉ dropped st) as Hnin.
  { intros Hin%Hdr. congruence. }
  split.
  - apply NoDup_app. split; [done|]. split; [|apply NoDup_singleton].
    intros x Hx ->%list_elem_of_singleton. done.
  - intros j'. rewrite elem_of_app, list_elem_of_singleton.
    destruct (decide (j' = j)) as [->|Hne].
    + rewrite vget_insert_eq by lia. split; [done | by right].
    + rewrite vget_insert_ne by lia. rewrite Hdr. split; [|by left].
      by intros [?|?].
Qed.

Lemma reachable_wf pts precision st :
  reachable pts precision st → wf st.
Proof.
  induction 1 as [|a b c st st' _ IH Hadd|i j st h st' h' _ IH Hscan].
  - apply wf_empty.
  - by eapply AddTri_wf.
  - by eapply scan_face_wf.
Qed.

(** The plane of every slot, live or dead, is the plane of its triangle
    taken in reverse order. *)
Lemma reachable_planes pts precision st :
  reachable pts precision st →
  ∀ (j : nat) t pl,
    triangles st !! j = Some t → planes st !! j = Some pl →
    plane_of_slot pts t pl.
Proof.
  induction 1 as [|a b c st st' Hr IH Hadd|i j st h st' h' Hr IH Hscan].
  - intros j t pl Ht. done.
  - apply reachable_wf in Hr as (Hp & _).
    apply AddTri_inv in Hadd as (pa & pb & pc & Ha & Hb & Hc & Hcase).
    assert (plane_of_slot pts (IVec3 c b a) (PlaneOfPts pa pb pc)) as Hnew.
    { by exists pa, pb, pc. }
    intros j t pl.
    destruct Hcase as [(ds & idx & _ & Hi1 & Hi2 & _ & ->) | [_ ->]]; simpl.
    + destruct (decide (j = Z.to_nat idx)) as [->|Hne].
      * rewrite !list_lookup_insert_eq by lia. by intros [= <-] [= <-].
      * rewrite !list_lookup_insert_ne by done. apply IH.
    + intros Ht Hpl.
      apply lookup_app_Some in Ht as [Ht | [Hlen Ht]].
      * apply lookup_app_Some in Hpl as [Hpl | [Hlen _]].
        -- by eapply IH.
        -- apply lookup_lt_Some in Ht. lia.
      * apply lookup_app_Some in Hpl as [Hpl | [_ Hpl]].
        -- apply lookup_lt_Some in Hpl. lia.
        -- apply list_lookup_singleton_Some in Ht as [_ <-].
           rewrite Hp in Hpl.
           by apply list_lookup_singleton_Some in Hpl as [_ <-].
  - apply scan_face_inv in Hscan
      as [(-> & _ & _) | (t' & _ & _ & _ & -> & _)]; [done|].
    simpl. apply IH.
Qed.

End Table.

(** ** Every state of a run is reachable; the output is the live faces *)

Section Run.
Context {F D : Type} `{!FloatOps F D} `{!UnorderedSet}.
Implicit Types (st : FaceTable F) (pts : list (vec3 F)) (h : list ivec2).

Lemma scan_reachable pts precision i st h st' h' :
  reachable pts precision st →
  scan pts precision i (st, h) = Ok (st', h') →
  reachable pts precision st'.
Proof.
  intros Hr Hrun. unfold scan in Hrun.
  apply (for_loop_inv (λ _ s, reachable pts precision s.1)) in Hrun;
    [done|done|].
  intros k [t u] [t' u'] _ Ht Hstep. simpl in *. by eapply reach_scan.
Qed.

Lemma horizon_reachable pts precision i work :
  ∀ cur st st' cur',
    reachable pts precision st →
    horizon pts i work cur st = Ok (st', cur') →
    reachable pts precision st'.
Proof.
  induction work as [|e work IH]; intros cur st st' cur' Hr Hrun;
    simpl in Hrun.
  - by injection Hrun as <- _.
  - repeat case_bool_decide; try discriminate; try by eapply IH.
    apply bind_Ok in Hrun as (st1 & Hadd & Hrun).
    eapply IH; [|exact Hrun]. by eapply reach_add.
Qed.

Lemma add_point_reachable pts precision a b c d i st h st' h' :
  reachable pts precision st →
  add_point pts precision a b c d i (st, h) = Ok (st', h') →
  reachable pts precision st'.
Proof.
  intros Hr Hrun. unfold add_point in Hrun. case_bool_decide.
  - by injection Hrun as <- _.
  - apply bind_Ok in Hrun as ([st1 h1] & Hscan & Hrun).
    apply bind_Ok in Hrun as ([st2 h2] & Hhor & Hrun).
    injection Hrun as <- _.
    eapply horizon_reachable; [|exact Hhor]. by eapply scan_reachable.
Qed.

(** The four seed faces and the table after the loop over the points. *)
Lemma HullTable_inv pts precision st :
  HullTable pts precision = Ok (Some st) →
  ∃ a b c d st1 st2 st3 st4 h,
    4 ≤ Z.of_nat (length pts) ∧
    seed pts precision = Ok (Some (a, b, c, d)) ∧
    AddTri pts a b c empty_table = Ok st1 ∧
    AddTri pts d b a st1 = Ok st2 ∧
    AddTri pts c d a st2 = Ok st3 ∧
    AddTri pts b d c st3 = Ok st4 ∧
    for_loop (length pts) 0 (add_point pts precision a b c d) (st4, [])
      = Ok (st, h).
Proof.
  unfold HullTable. intros Hrun. case_bool_decide as Hlen; [discriminate|].
  apply bind_Ok in Hrun as (sd & Hseed & Hrun).
  destruct sd as [[[[a b] c] d]|]; [|discriminate].
  apply bind_Ok in Hrun as (st1 & H1 & Hrun).
  apply bind_Ok in Hrun as (st2 & H2 & Hrun).
  apply bind_Ok in Hrun as (st3 & H3 & Hrun).
  apply bind_Ok in Hrun as (st4 & H4 & Hrun).
  apply bind_Ok in Hrun as ([st5 h] & Hloop & Hrun).
  injection Hrun as <-.
  exists a, b, c, d, st1, st2, st3, st4, h. split; [lia|]. done.
Qed.

Lemma HullTable_reachable pts precision st :
  HullTable pts precision = Ok (Some st) → reachable pts precision st.
Proof.
  intros (a & b & c & d & st1 & st2 & st3 & st4 & h & _ & _ &
          H1 & H2 & H3 & H4 & Hloop)%HullTable_inv.
  apply (for_loop_inv (λ _ s, reachable pts precision s.1)) in Hloop;
    [done| |].
  - simpl. do 4 (eapply reach_add; [|eassumption]). apply reach_empty.
  - intros k [t u] [t' u'] _ Ht Hstep. simpl in *.
    by eapply add_point_reachable.
Qed.

(** The last loop of [Hull] always ends and returns the live faces. *)
Lemma collect_from st (n : nat) :
  length (kept st) = length (triangles st) →
  ∀ (i : nat) (out : list ivec3),
    (i + n)%nat = length (triangles st) →
    for_loop n (Z.of_nat i) (collect_face st) out
    = Ok (out ++ (filter (λ tk, tk.2 = true)
                    (drop i (zip (triangles st) (kept st)))).*1).
Proof.
  intros Hk. induction n as [|n IH]; intros i out Hi; simpl.
  - rewrite drop_ge; [by rewrite app_nil_r|].
    rewrite length_zip_with. lia.
  - destruct (lookup_lt_is_Some_2 (triangles st) i) as [t Ht]; [lia|].
    destruct (lookup_lt_is_Some_2 (kept st) i) as [k Hkk]; [lia|].
    assert (zip (triangles st) (kept st) !! i = Some (t, k)) as Hz.
    { rewrite lookup_zip_with, Ht; simpl. by rewrite Hkk. }
    rewrite (drop_S _ _ _ Hz).
    assert (collect_face st (Z.of_nat i) out
            = Ok (if k then out ++ [t] else out)) as Hcf.
    { unfold collect_face.
      assert (vget (kept st) (Z.of_nat i) = Ok k) as ->.
      { apply vget_Ok. rewrite Nat2Z.id. split; [lia | done]. }
      assert (vget (triangles st) (Z.of_nat i) = Ok t) as ->.
      { apply vget_Ok. rewrite Nat2Z.id. split; [lia | done]. }
      by destruct k. }
    rewrite Hcf. simpl.
    replace (Z.of_nat i + 1) with (Z.of_nat (S i)) by lia.
    rewrite IH by lia. destruct k.
    + rewrite filter_cons_True by done. simpl.
      by rewrite <- app_assoc.
    + by rewrite filter_cons_False by done.
Qed.

Lemma collect_live st :
  length (kept st) = length (triangles st) → collect st = Ok (live st).
Proof.
  intros Hk. unfold collect, live.
  by rewrite (collect_from st _ Hk 0 []).
Qed.

Lemma Hull_live pts precision st :
  HullTable pts precision = Ok (Some st) →
  Hull pts precision = Ok (live st).
Proof.
  intros Htb. unfold Hull. rewrite Htb; simpl.
  apply collect_live. by apply HullTable_reachable, reachable_wf in Htb
    as (_ & ? & _).
Qed.

Lemma elem_of_live st t :
  t ∈ live st ↔
  ∃ j : nat, triangles st !! j = Some t ∧ kept st !! j = Some true.
Proof.
  unfold live. rewrite list_elem_of_fmap. split.
  - intros ([t' k] & -> & [Hin Hk]%list_elem_of_filter). simpl in *.
    subst k. apply list_elem_of_lookup in Hk as [j Hj].
    apply lookup_zip_with_Some in Hj as (t0 & k0 & [= <- <-] & Ht & Hk).
    by exists j.
  - intros (j & Ht & Hk). exists (t, true). split; [done|].
    apply list_elem_of_filter. split; [done|].
    apply list_elem_of_lookup. exists j.
    apply lookup_zip_with_Some. by exists t, true.
Qed.

End Run.

(** ** The set of half edges *)

Section Edges.
Context `{!UnorderedSet}.
Implicit Types (e : ivec2) (l S : list ivec2).

Lemma rev_edge_involutive e : rev_edge (rev_edge e) = e.
Proof. by destruct e. Qed.

Lemma rev_edge_inj e e' : rev_edge e = rev_edge e' → e = e'.
Proof.
  intros Heq. rewrite <- (rev_edge_involutive e), Heq.
  apply rev_edge_involutive.
Qed.

Lemma rev_edge_fixed e : rev_edge e = e ↔ ex e = ey e.
Proof.
  destruct e as [u v]; unfold rev_edge; simpl. split.
  - by intros [= -> _].
  - by intros ->.
Qed.

Lemma elem_of_us_insert e e' l : e' ∈ us_insert e l ↔ e' = e ∨ e' ∈ l.
Proof.
  destruct (decide (e ∈ l)) as [Hin|Hnin].
  - rewrite (us_insert_elem _ _ Hin). split; [by right|].
    by intros [->|?].
  - rewrite (us_insert_perm _ _ Hnin). apply elem_of_cons.
Qed.

Lemma NoDup_us_insert e l : NoDup l → NoDup (us_insert e l).
Proof.
  intros Hnd. destruct (decide (e ∈ l)) as [Hin|Hnin].
  - by rewrite (us_insert_elem _ _ Hin).
  - rewrite (us_insert_perm _ _ Hnin). by constructor.
Qed.

Lemma elem_of_us_erase e e' l : e' ∈ us_erase e l ↔ e' ∈ l ∧ e' ≠ e.
Proof. unfold us_erase. rewrite list_elem_of_filter. tauto. Qed.

Lemma elem_of_insert3 e e1 e2 e3 l :
  e ∈ us_insert e3 (us_insert e2 (us_insert e1 l)) ↔
  e ∈ [e1; e2; e3] ∨ e ∈ l.
Proof.
  rewrite !elem_of_us_insert, !elem_of_cons, elem_of_nil. tauto.
Qed.

End Edges.

(** ** The conflict scan *)

Section Scan.
Context {F D : Type} `{!FloatOps F D} `{!UnorderedSet}.
Implicit Types (st : FaceTable F) (pts : list (vec3 F)) (h : list ivec2).

Lemma conflict_agree pts precision i st st' j :
  planes st' = planes st →
  vget (kept st') j = vget (kept st) j →
  conflict pts precision i st' j ↔ conflict pts precision i st j.
Proof.
  intros Hp Hk. unfold conflict. rewrite Hp, Hk. done.
Qed.

Lemma conflict_range pts precision i st j :
  conflict pts precision i st j → 0 ≤ j.
Proof. intros (p & pl & Hk%vget_range & _). lia. Qed.

Lemma scanned_step pts precision i st h k s s' :
  scanned pts precision i st h k s →
  scan_face pts precision i k s = Ok s' →
  scanned pts precision i st h (k + 1) s'.
Proof.
  destruct s as [st1 h1], s' as [st2 h2].
  intros (Ht & Hp & Hge & Hlt & Hnd & Hin) Hstep; simpl in *.
  assert (conflict pts precision i st1 k ↔ conflict pts precision i st k)
    as Hck.
  { apply conflict_agree; [done|]. apply Hge. lia. }
  apply scan_face_inv in Hstep
    as [(-> & -> & Hnc) | (t & Hc & Hvt & Hk & -> & ->)];
    unfold scanned; simpl.
  - do 2 (split; [done|]). split; [intros j Hj; apply Hge; lia|].
    split; [|split; [done|]].
    + intros j Hj. destruct (decide (j = k)) as [->|Hne].
      * rewrite Hge by lia. rewrite Hck in Hnc. split; [|tauto].
        intros Hkt. split; [done|]. done.
      * apply Hlt. lia.
    + intros e. rewrite Hin. split.
      * intros [?|(j & t & Hj & Hrest)]; [by left|].
        right. exists j, t. split; [lia | done].
      * intros [?|(j & t & Hj & Hc & Hrest)]; [by left|].
        right. exists j, t. split; [|done].
        destruct (decide (j = k)) as [->|Hne]; [|lia].
        rewrite <- Hck in Hc. done.
  - do 2 (split; [done|]).
    assert (0 ≤ k) as Hk0 by lia.
    split; [intros j Hj; rewrite vget_insert_ne by lia; apply Hge; lia|].
    split; [|split].
    + intros j Hj. destruct (decide (j = k)) as [->|Hne].
      * rewrite vget_insert_eq by done. rewrite Hck in Hc.
        split; [discriminate | tauto].
      * rewrite vget_insert_ne by lia. apply Hlt. lia.
    + intros Hh. by do 3 apply NoDup_us_insert; auto.
    + rewrite Ht in Hvt. rewrite Hck in Hc.
      intros e. rewrite elem_of_insert3, Hin. split.
      * intros [He | [?|(j & t' & Hj & Hrest)]]; [|by left|].
        -- right. exists k, t. split; [lia|]. done.
        -- right. exists j, t'. split; [lia | done].
      * intros [?|(j & t' & Hj & Hc' & Hvt' & He)]; [by right; left|].
        destruct (decide (j = k)) as [->|Hne].
        -- left. assert (t' = t) as -> by congruence. exact He.
        -- right; right. exists j, t'. split; [lia | done].
Qed.

(** The scan for point [i]: the table keeps its triangles and planes, the
    faces in conflict with [i] are the ones it kills, and the set holds
    the half edges of exactly those faces. *)
Lemma scan_spec pts precision i st h st' h' :
  wf st →
  scan pts precision i (st, h) = Ok (st', h') →
  triangles st' = triangles st ∧
  planes st' = planes st ∧
  (∀ j, vget (kept st') j = Ok true ↔
        vget (kept st) j = Ok true ∧ ¬ conflict pts precision i st j) ∧
  (NoDup h → NoDup h') ∧
  (∀ e, e ∈ h' ↔
     e ∈ h ∨ ∃ j t, conflict pts precision i st j ∧
                    vget (triangles st) j = Ok t ∧ e ∈ face_edges t).
Proof.
  intros (_ & Hlen & _) Hrun. unfold scan in Hrun; simpl in Hrun.
  apply (for_loop_inv (scanned pts precision i st h)) in Hrun.
  - destruct Hrun as (Ht & Hp & Hge & Hlt & Hnd & Hin); simpl in *.
    do 2 (split; [done|]). split; [|split; [done|]].
    + intros j.
      destruct (decide (j < Z.of_nat (length (triangles st)))) as [Hj|Hj].
      * apply Hlt. lia.
      * rewrite Hge by lia. split; [|tauto].
        intros Hk%vget_range. lia.
    + intros e. rewrite Hin. split.
      * intros [?|(j & t & _ & Hrest)]; [by left|]. right. by exists j, t.
      * intros [?|(j & t & Hc & Hvt & He)]; [by left|].
        right. exists j, t. split; [|done].
        apply vget_range in Hvt. lia.
  - unfold scanned; simpl. do 3 (split; [done|]).
    split; [intros j Hj|split; [done|]].
    + split; [|tauto]. intros Hk. split; [done|].
      intros Hc%conflict_range. lia.
    + intros e. split; [by left|].
      intros [?|(j & t & Hj & Hc%conflict_range & _)]; [done | lia].
  - intros k s s' _. apply scanned_step.
Qed.

End Scan.

(** ** The loop over the half edges *)

Section Horizon.
Context {F D : Type} `{!FloatOps F D} `{!UnorderedSet}.
Implicit Types (st : FaceTable F) (pts : list (vec3 F)).
Implicit Types (e : ivec2) (work seen cur S : list ivec2).

(** [seen] is what the traversal has passed.  An edge still to visit is
    in the set unless its reverse was visited, and an edge that is
    visited finds its reverse in the set exactly when the reverse was
    collected. *)
Lemma horizon_spec_gen pts i S work :
  ∀ seen cur st,
    seen ++ work = S →
    NoDup S →
    (∀ e, e ∈ work → ex e ≠ ey e) →
    (∀ e, e ∈ cur → e ∈ S) →
    (∀ e, e ∈ work → (e ∈ cur ↔ rev_edge e ∉ seen)) →
    (horizon pts i work cur st ≫= (λ r, Ok r.1))
    = add_faces pts i (filter (λ e, rev_edge e ∉ S) work) st.
Proof.
  induction work as [|e work IH];
    intros seen cur st HS Hnd Hloop Hsub Hcur; [done|].
  assert (rev_edge e ≠ e) as Hne.
  { rewrite rev_edge_fixed. apply Hloop. by left. }
  assert ((e ∉ seen) ∧ (e ∉ work) ∧ ∀ e', e' ∈ work → e' ∉ seen)
    as (Hes & Hew & Hdisj).
  { rewrite <- HS in Hnd.
    apply NoDup_app in Hnd as (_ & Hd & Hw). apply NoDup_cons in Hw as [? _].
    split; [|split; [done|]].
    - intros Hin. apply (Hd e Hin). by left.
    - intros e' He' Hin. apply (Hd e' Hin). by right. }
  assert ((seen ++ [e]) ++ work = S) as HS'.
  { by rewrite <- app_assoc. }
  assert (∀ e', e' ∈ work → ex e' ≠ ey e') as Hloop'.
  { intros e' He'. apply Hloop. by right. }
  assert (∀ e', e' ∈ S ↔ e' ∈ seen ∨ e' = e ∨ e' ∈ work) as HinS.
  { intros e'. by rewrite <- HS, elem_of_app, elem_of_cons. }
  simpl. fold (rev_edge e).
  destruct (decide (e ∈ cur)) as [Hin|Hnin].
  - rewrite (bool_decide_eq_true_2 _ Hin).
    rewrite (bool_decide_eq_false_2 _ Hne).
    assert (rev_edge e ∉ seen) as Hrs by (apply Hcur; [by left | done]).
    destruct (decide (rev_edge e ∈ cur)) as [Hr|Hr].
    + rewrite (bool_decide_eq_true_2 _ Hr).
      rewrite filter_cons_False by (intros Hn; apply Hn, Hsub, Hr).
      apply (IH (seen ++ [e])); try done.
      * intros e' [He' _]%elem_of_us_erase. by apply Hsub.
      * intros e' He'. rewrite elem_of_us_erase, not_elem_of_app.
        rewrite Hcur by (by right). rewrite list_elem_of_singleton.
        split.
        -- intros [? Hn]. split; [done|]. intros <-.
           by rewrite rev_edge_involutive in Hn.
        -- intros [? Hn]. split; [done|]. intros ->.
           by rewrite rev_edge_involutive in Hn.
    + rewrite (bool_decide_eq_false_2 _ Hr).
      assert (rev_edge e ∉ S) as Hrn.
      { rewrite HinS. intros [?|[?|Hw]]; [done|done|].
        apply Hr, Hcur; [by right|].
        by rewrite rev_edge_involutive. }
      rewrite filter_cons_True by done. simpl.
      destruct (AddTri pts (ex e) (ey e) i st) as [st1|f]; [simpl|done].
      apply (IH (seen ++ [e])); try done.
      intros e' He'. rewrite not_elem_of_app, list_elem_of_singleton.
      rewrite Hcur by (by right). split; [|tauto].
      intros ?. split; [done|]. intros Heq. apply Hrn.
      rewrite <- Heq, rev_edge_involutive.
      apply HinS. by right; right.
  - rewrite (bool_decide_eq_false_2 _ Hnin).
    assert (rev_edge e ∈ seen) as Hrs.
    { destruct (decide (rev_edge e ∈ seen)) as [?|Hn]; [done|].
      exfalso. apply Hnin, Hcur; [by left | done]. }
    rewrite filter_cons_False
      by (intros Hn; apply Hn, HinS; by left).
    apply (IH (seen ++ [e])); try done.
    intros e' He'. rewrite not_elem_of_app, list_elem_of_singleton.
    rewrite Hcur by (by right). split; [|tauto].
    intros ?. split; [done|]. intros Heq. apply (Hdisj e' He').
    by rewrite <- (rev_edge_involutive e'), Heq.
Qed.

(** The faces the loop creates are those of the half edges whose reverse
    was not collected, in the order of the traversal. *)
Lemma horizon_spec pts i S st :
  NoDup S →
  (∀ e, e ∈ S → ex e ≠ ey e) →
  (horizon pts i S S st ≫= (λ r, Ok r.1))
  = add_faces pts i (horizon_edges S) st.
Proof.
  intros Hnd Hloop.
  apply (horizon_spec_gen pts i S S [] S st); try done.
  intros e He. split; [|done]. intros _ Hin. by apply elem_of_nil in Hin.
Qed.

(** Once the traversal has ended no edge is left with its reverse. *)
Lemma horizon_cancel_gen pts i work :
  ∀ seen cur st st' cur',
    (∀ e, e ∈ cur → e ∈ seen ++ work) →
    (∀ e, e ∈ seen → e ∈ cur → rev_edge e ∉ cur) →
    horizon pts i work cur st = Ok (st', cur') →
    ∀ e, e ∈ cur' → rev_edge e ∉ cur'.
Proof.
  induction work as [|e0 work IH];
    intros seen cur st st' cur' Hsub Hseen Hrun; simpl in Hrun.
  - injection Hrun as _ <-. intros e He. apply Hseen; [|done].
    specialize (Hsub e He). by rewrite app_nil_r in Hsub.
  - fold (rev_edge e0) in Hrun.
    assert (∀ X : list ivec2, (seen ++ [e0]) ++ X = seen ++ e0 :: X)
      as Hassoc.
    { intros X. by rewrite <- app_assoc. }
    destruct (decide (e0 ∈ cur)) as [Hin|Hnin].
    + rewrite (bool_decide_eq_true_2 _ Hin) in Hrun.
      case_bool_decide as Hfix; [discriminate|].
      destruct (decide (rev_edge e0 ∈ cur)) as [Hr|Hr].
      * rewrite (bool_decide_eq_true_2 _ Hr) in Hrun.
        eapply (IH (seen ++ [e0])); [| |exact Hrun].
        -- intros e [He _]%elem_of_us_erase. rewrite Hassoc. by apply Hsub.
        -- intros e Hes [He Hne]%elem_of_us_erase.
           rewrite elem_of_us_erase.
           apply elem_of_app in Hes as [Hes | ->%list_elem_of_singleton].
           ++ intros [Hn _]. by apply (Hseen e).
           ++ intros [_ Hn]. done.
      * rewrite (bool_decide_eq_false_2 _ Hr) in Hrun.
        apply bind_Ok in Hrun as (st1 & _ & Hrun).
        eapply (IH (seen ++ [e0])); [| |exact Hrun].
        -- intros e He. rewrite Hassoc. by apply Hsub.
        -- intros e [Hes | ->%list_elem_of_singleton]%elem_of_app He;
             [by apply Hseen | done].
    + rewrite (bool_decide_eq_false_2 _ Hnin) in Hrun.
      eapply (IH (seen ++ [e0])); [| |exact Hrun].
      * intros e He. rewrite Hassoc. by apply Hsub.
      * intros e [Hes | ->%list_elem_of_singleton]%elem_of_app He;
          [by apply Hseen | done].
Qed.

Lemma horizon_cancel pts i S st st' cur' :
  horizon pts i S S st = Ok (st', cur') →
  ∀ e, e ∈ cur' → rev_edge e ∉ cur'.
Proof.
  intros Hrun.
  eapply (horizon_cancel_gen pts i S [] S); [done| |exact Hrun].
  intros e Hin. by apply elem_of_nil in Hin.
Qed.

End Horizon.

(** ** Vertex indices of the faces *)

Section Vertices.
Context {F D : Type} `{!FloatOps F D} `{!UnorderedSet}.
Implicit Types (st : FaceTable F) (pts : list (vec3 F)) (h : list ivec2).
Implicit Types (P : ivec3 → Prop).

Lemma Hull_inv pts precision out :
  Hull pts precision = Ok out →
  (HullTable pts precision = Ok None ∧ out = [])
  ∨ (∃ st, HullTable pts precision = Ok (Some st) ∧ out = live st).
Proof.
  intros Hrun. unfold Hull in Hrun.
  apply bind_Ok in Hrun as ([st|] & Htb & Hrun).
  - right. exists st. split; [done|].
    pose proof (HullTable_reachable _ _ _ Htb) as (_ & Hk & _)%reachable_wf.
    rewrite (collect_live st Hk) in Hrun. by injection Hrun as <-.
  - left. by injection Hrun as <-.
Qed.

Lemma AddTri_Forall P pts a b c st st' :
  Forall P (triangles st) → P (IVec3 c b a) →
  AddTri pts a b c st = Ok st' →
  Forall P (triangles st').
Proof.
  intros HP Hnew (pa & pb & pc & _ & _ & _ & Hcase)%AddTri_inv.
  destruct Hcase as [(ds & idx & _ & _ & _ & _ & ->) | [_ ->]]; simpl.
  - by apply Forall_insert.
  - apply Forall_app. split; [done|]. by constructor.
Qed.

Lemma AddTri_valid pts a b c st st' :
  AddTri pts a b c st = Ok st' → valid_tri (Z.of_nat (length pts)) (IVec3 c b a).
Proof.
  intros (pa & pb & pc & Ha%vget_range & Hb%vget_range & Hc%vget_range & _)
    %AddTri_inv.
  unfold valid_tri; simpl. lia.
Qed.

(** Every triangle that was ever stored indexes the point sequence. *)
Lemma reachable_valid pts precision st :
  reachable pts precision st →
  Forall (valid_tri (Z.of_nat (length pts))) (triangles st).
Proof.
  induction 1 as [|a b c st st' _ IH Hadd|i j st h st' h' _ IH Hscan].
  - constructor.
  - eapply AddTri_Forall; [exact IH| |exact Hadd].
    by eapply AddTri_valid.
  - apply scan_face_inv in Hscan
      as [(-> & _ & _) | (t & _ & _ & _ & -> & _)]; done.
Qed.

Lemma horizon_Forall P pts i work :
  ∀ cur st st' cur',
    Forall P (triangles st) →
    (∀ e, e ∈ work → P (IVec3 i (ey e) (ex e))) →
    horizon pts i work cur st = Ok (st', cur') →
    Forall P (triangles st').
Proof.
  induction work as [|e work IH]; intros cur st st' cur' HP Hnew Hrun;
    simpl in Hrun.
  - by injection Hrun as <- _.
  - assert (∀ e', e' ∈ work → P (IVec3 i (ey e') (ex e'))) as Hnew'.
    { intros e' He'. apply Hnew. by right. }
    repeat case_bool_decide; try discriminate; try by eapply IH.
    apply bind_Ok in Hrun as (st1 & Hadd & Hrun).
    eapply IH; [|exact Hnew'|exact Hrun].
    eapply AddTri_Forall; [exact HP| |exact Hadd]. apply Hnew. by left.
Qed.

Lemma known_fresh a b c d k v :
  ¬ (k = a ∨ k = b ∨ k = c ∨ k = d) → known a b c d k v → k ≠ v.
Proof. unfold known. intros Hk Hv ->. lia. Qed.

Lemma known_mono a b c d k k' v :
  k ≤ k' → known a b c d k v → known a b c d k' v.
Proof. unfold known. lia. Qed.

Lemma sound_tri_mono a b c d k k' t :
  k ≤ k' → sound_tri a b c d k t → sound_tri a b c d k' t.
Proof.
  intros Hk (Hd & Hx & Hy & Hz).
  split; [done|]. repeat split; by eapply known_mono.
Qed.

Lemma sound_tri_new a b c d k t e :
  ¬ (k = a ∨ k = b ∨ k = c ∨ k = d) →
  sound_tri a b c d k t → e ∈ face_edges t →
  sound_tri a b c d (k + 1) (IVec3 k (ey e) (ex e)).
Proof.
  intros Hk ((Hxy & Hyz & Hxz) & Hx & Hy & Hz) He.
  pose proof (known_fresh _ _ _ _ _ _ Hk Hx) as Hfx.
  pose proof (known_fresh _ _ _ _ _ _ Hk Hy) as Hfy.
  pose proof (known_fresh _ _ _ _ _ _ Hk Hz) as Hfz.
  assert (known a b c d (k + 1) k) as Hkk by (unfold known; lia).
  apply (known_mono _ _ _ _ k (k + 1)) in Hx, Hy, Hz; try lia.
  unfold sound_tri, distinct_tri.
  apply elem_of_cons in He as [->|He];
    [|apply elem_of_cons in He as [->|He];
      [|apply list_elem_of_singleton in He as ->]];
    simpl; repeat split; done.
Qed.

Lemma add_point_sound pts precision a b c d k st st' h' :
  reachable pts precision st →
  Forall (sound_tri a b c d k) (triangles st) →
  add_point pts precision a b c d k (st, []) = Ok (st', h') →
  h' = [] ∧ Forall (sound_tri a b c d (k + 1)) (triangles st').
Proof.
  intros Hr HQ Hrun. unfold add_point in Hrun. case_bool_decide as Hk.
  - injection Hrun as <- <-. split; [done|].
    eapply Forall_impl; [exact HQ|]. intros t. apply sound_tri_mono. lia.
  - apply bind_Ok in Hrun as ([st1 h1] & Hscan & Hrun).
    apply bind_Ok in Hrun as ([st2 h2] & Hhor & Hrun).
    injection Hrun as <- <-. split; [done|].
    apply scan_spec in Hscan as (Ht & _ & _ & _ & Hin);
      [|by eapply reachable_wf].
    eapply horizon_Forall; [| |exact Hhor].
    + rewrite Ht. eapply Forall_impl; [exact HQ|].
      intros t. apply sound_tri_mono. lia.
    + intros e [He|(j & t & _ & Hvt & He)]%Hin;
        [by apply elem_of_nil in He|].
      eapply sound_tri_new; [exact Hk| |exact He].
      rewrite Forall_forall in HQ. apply HQ. by eapply vget_elem_of.
Qed.

(** With four different seed points no face has a repeated vertex. *)
Lemma HullTable_distinct pts precision a b c d st :
  seed pts precision = Ok (Some (a, b, c, d)) →
  distinct_seed a b c d →
  HullTable pts precision = Ok (Some st) →
  Forall distinct_tri (triangles st).
Proof.
  intros Hseed Hd Htb.
  apply HullTable_inv in Htb
    as (a' & b' & c' & d' & st1 & st2 & st3 & st4 & h & _ & Hseed' &
        H1 & H2 & H3 & H4 & Hloop).
  rewrite Hseed in Hseed'. injection Hseed' as <- <- <- <-.
  assert (reachable pts precision st4) as Hr4.
  { do 4 (eapply reach_add; [|eassumption]). apply reach_empty. }
  assert (Forall (sound_tri a b c d 0) (triangles st4)) as HQ4.
  { unfold distinct_seed in Hd.
    eapply AddTri_Forall; [| |exact H4].
    eapply AddTri_Forall; [| |exact H3].
    eapply AddTri_Forall; [| |exact H2].
    eapply AddTri_Forall; [| |exact H1].
    - constructor.
    - unfold sound_tri, distinct_tri, known; simpl. lia.
    - unfold sound_tri, distinct_tri, known; simpl. lia.
    - unfold sound_tri, distinct_tri, known; simpl. lia.
    - unfold sound_tri, distinct_tri, known; simpl. lia. }
  apply (for_loop_inv (λ k s,
           reachable pts precision s.1 ∧ s.2 = [] ∧
           Forall (sound_tri a b c d k) (triangles s.1))) in Hloop.
  - destruct Hloop as (_ & _ & HQ); simpl in HQ.
    eapply Forall_impl; [exact HQ|]. by intros t [? _].
  - done.
  - intros k [t u] [t' u'] _ (Hr & Hu & HQ) Hstep; simpl in *. subst u.
    split; [by eapply add_point_reachable|].
    by eapply add_point_sound.
Qed.

End Vertices.

(** ** Seed selection and the early returns *)

Section Seed.
Context {F D : Type} `{!FloatOps F D} `{!UnorderedSet}.
Implicit Types (st : FaceTable F) (pts rest : list (vec3 F)).

(** [NonCoplanar] returns the first point farther than [precision] from
    the plane, with the side it is on, or -1. *)
Lemma NonCoplanar_from_spec rest (plane : vec4 F) (precision : D) :
  ∀ i d above,
    0 ≤ i →
    NonCoplanar_from i rest plane precision = (d, above) →
    (d = -1 ∧ above = false)
    ∨ (∃ pd, i ≤ d ∧ rest !! Z.to_nat (d - i) = Some pd ∧
             d_gt (d_abs (DistanceToPlane pd plane)) precision = true ∧
             above = d_gt (DistanceToPlane pd plane) precision).
Proof.
  induction rest as [|p rest IH]; intros i d above Hi Hrun; simpl in Hrun.
  - left. by injection Hrun as <- <-.
  - destruct (d_gt (d_abs (DistanceToPlane p plane)) precision) eqn:Hoff.
    + right. injection Hrun as <- <-. exists p.
      rewrite Z.sub_diag. done.
    + apply IH in Hrun as [?|(pd & Hd & Hl & Hrest)]; [by left| |lia].
      right. exists pd. split; [lia|]. split; [|done].
      replace (Z.to_nat (d - i)) with (S (Z.to_nat (d - (i + 1)))) by lia.
      done.
Qed.

Lemma NonCoplanar_spec pts (plane : vec4 F) (precision : D) d above :
  NonCoplanar pts plane precision = (d, above) →
  (d = -1 ∧ above = false)
  ∨ (∃ pd, vget pts d = Ok pd ∧
           d_gt (d_abs (DistanceToPlane pd plane)) precision = true ∧
           above = d_gt (DistanceToPlane pd plane) precision).
Proof.
  intros [?|(pd & Hd & Hl & Hrest)]%NonCoplanar_from_spec; [by left|..|done].
  right. exists pd. split; [|done]. apply vget_Ok.
  rewrite Z.sub_0_r in Hl. done.
Qed.

(** Lines 75 to 82 of the source, read back from their result. *)
Lemma seed_inv pts precision a b c d :
  seed pts precision = Ok (Some (a, b, c, d)) →
  ∃ trip pa pb pc pd,
    NonCollinearTriple pts precision = Ok trip ∧
    vget pts (ix trip) = Ok pa ∧ vget pts (iy trip) = Ok pb ∧
    vget pts (iz trip) = Ok pc ∧ vget pts d = Ok pd ∧
    a = ix trip ∧
    d_gt (d_abs (DistanceToPlane pd (PlaneOfPts pa pb pc))) precision
      = true ∧
    b = (if d_gt (DistanceToPlane pd (PlaneOfPts pa pb pc)) precision
         then iz trip else iy trip) ∧
    c = (if d_gt (DistanceToPlane pd (PlaneOfPts pa pb pc)) precision
         then iy trip else iz trip).
Proof.
  unfold seed. intros Hrun.
  apply bind_Ok in Hrun as (trip & Htrip & Hrun).
  apply bind_Ok in Hrun as (pa & Hpa & Hrun).
  apply bind_Ok in Hrun as (pb & Hpb & Hrun).
  apply bind_Ok in Hrun as (pc & Hpc & Hrun).
  destruct (NonCoplanar pts (PlaneOfPts pa pb pc) precision)
    as [d' above] eqn:Hnc.
  case_bool_decide as Hd; [discriminate|].
  injection Hrun as <- <- <- <-.
  apply NonCoplanar_spec in Hnc as [[-> _]|(pd & Hpd & Hoff & ->)]; [lia|].
  exists trip, pa, pb, pc, pd. done.
Qed.

Lemma Hull_short pts precision :
  Z.of_nat (length pts) < 4 → Hull pts precision = Ok [].
Proof.
  intros Hlen. unfold Hull, HullTable.
  by rewrite bool_decide_eq_true_2.
Qed.

Lemma Hull_coplanar pts precision :
  4 ≤ Z.of_nat (length pts) →
  seed pts precision = Ok None → Hull pts precision = Ok [].
Proof.
  intros Hlen Hseed. unfold Hull, HullTable.
  rewrite bool_decide_eq_false_2 by lia. by rewrite Hseed.
Qed.

(** The sentinel of [NonCollinearTriple] is used as an index. *)
Lemma Hull_sentinel pts precision :
  4 ≤ Z.of_nat (length pts) →
  NonCollinearTriple pts precision = Ok (IVec3 (-1) (-1) (-1)) →
  Hull pts precision = UB (OutOfBounds (-1)).
Proof.
  intros Hlen Htrip. unfold Hull, HullTable, seed.
  rewrite bool_decide_eq_false_2 by lia. by rewrite Htrip.
Qed.

Lemma AddTri_length pts a b c st st' :
  AddTri pts a b c st = Ok st' →
  (length (triangles st) ≤ length (triangles st'))%nat.
Proof.
  intros (pa & pb & pc & _ & _ & _ & Hcase)%AddTri_inv.
  destruct Hcase as [(ds & idx & _ & _ & _ & _ & ->) | [_ ->]]; simpl.
  - by rewrite length_insert.
  - rewrite length_app; simpl. lia.
Qed.

Lemma horizon_length pts i work :
  ∀ cur st st' cur',
    horizon pts i work cur st = Ok (st', cur') →
    (length (triangles st) ≤ length (triangles st'))%nat.
Proof.
  induction work as [|e work IH]; intros cur st st' cur' Hrun;
    simpl in Hrun.
  - by injection Hrun as <- _.
  - repeat case_bool_decide; try discriminate; try by eapply IH.
    apply bind_Ok in Hrun as (st1 & Hadd%AddTri_length & Hrun%IH). lia.
Qed.

Lemma add_point_length pts precision a b c d i st h st' h' :
  reachable pts precision st →
  add_point pts precision a b c d i (st, h) = Ok (st', h') →
  (length (triangles st) ≤ length (triangles st'))%nat.
Proof.
  intros Hr Hrun. unfold add_point in Hrun. case_bool_decide.
  - by injection Hrun as <- _.
  - apply bind_Ok in Hrun as ([st1 h1] & Hscan & Hrun).
    apply bind_Ok in Hrun as ([st2 h2] & Hhor%horizon_length & Hrun).
    injection Hrun as <- _.
    apply scan_spec in Hscan as (Ht & _); [|by eapply reachable_wf].
    by rewrite <- Ht.
Qed.

(** A table built from a seed has the four seed slots at least. *)
Lemma HullTable_length pts precision st :
  HullTable pts precision = Ok (Some st) →
  (4 ≤ length (triangles st))%nat.
Proof.
  intros (a & b & c & d & st1 & st2 & st3 & st4 & h & _ & _ &
          H1 & H2 & H3 & H4 & Hloop)%HullTable_inv.
  assert (reachable pts precision st4) as Hr4.
  { do 4 (eapply reach_add; [|eassumption]). apply reach_empty. }
  assert (4 ≤ length (triangles st4))%nat as Hl4.
  { apply AddTri_inv in H1 as (? & ? & ? & _ & _ & _ & Hc1).
    destruct Hc1 as [(ds & idx & Hds & _) | [_ ->]];
      [by destruct ds|].
    apply AddTri_inv in H2 as (? & ? & ? & _ & _ & _ & Hc2).
    destruct Hc2 as [(ds & idx & Hds & _) | [_ ->]];
      [by destruct ds|].
    apply AddTri_inv in H3 as (? & ? & ? & _ & _ & _ & Hc3).
    destruct Hc3 as [(ds & idx & Hds & _) | [_ ->]];
      [by destruct ds|].
    apply AddTri_inv in H4 as (? & ? & ? & _ & _ & _ & Hc4).
    destruct Hc4 as [(ds & idx & Hds & _) | [_ ->]];
      [by destruct ds|].
    simpl. done. }
  apply (for_loop_inv (λ _ s,
           reachable pts precision s.1 ∧
           (4 ≤ length (triangles s.1))%nat)) in Hloop.
  - by destruct Hloop as [_ ?].
  - done.
  - intros k [t u] [t' u'] _ [Hr Hl] Hstep; simpl in *.
    split; [by eapply add_point_reachable|].
    apply add_point_length in Hstep; [lia | done].
Qed.

Lemma live_nil st :
  length (kept st) = length (triangles st) →
  live st = [] ↔ Forall (λ k, k = false) (kept st).
Proof.
  intros Hlen. split.
  - intros Hnil. apply Forall_lookup. intros j k Hk.
    destruct k; [|done]. exfalso.
    destruct (lookup_lt_is_Some_2 (triangles st) j) as [t Ht].
    { apply lookup_lt_Some in Hk. lia. }
    assert (t ∈ live st) as Hin by (apply elem_of_live; by exists j).
    rewrite Hnil in Hin. by apply elem_of_nil in Hin.
  - intros Hall. destruct (live st) as [|t l] eqn:Hl; [done|].
    assert (t ∈ live st) as Hin by (rewrite Hl; by left).
    apply elem_of_live in Hin as (j & _ & Hk).
    rewrite Forall_lookup in Hall. by specialize (Hall j true Hk).
Qed.

Lemma AddTri_append pts a b c st pa pb pc :
  dropped st = [] →
  vget pts a = Ok pa → vget pts b = Ok pb → vget pts c = Ok pc →
  AddTri pts a b c st
  = Ok (MkTable (triangles st ++ [IVec3 c b a])
                (planes st ++ [PlaneOfPts pa pb pc]) [] (kept st ++ [true])).
Proof.
  intros Hnil Ha Hb Hc. unfold AddTri. rewrite Ha, Hb, Hc; simpl.
  rewrite Hnil; simpl. done.
Qed.

Lemma for_loop_skip {St : Type} (body : Z → St → result St) (s : St) n :
  ∀ i,
    (∀ k, i ≤ k < i + Z.of_nat n → body k s = Ok s) →
    for_loop n i body s = Ok s.
Proof.
  induction n as [|n IH]; intros i Hskip; simpl; [done|].
  rewrite Hskip by lia. simpl. apply IH. intros k Hk. apply Hskip. lia.
Qed.

(** Four points, all of them seed points: the result is the four seed
    faces. *)
Lemma Hull_tetrahedron pts precision a b c d :
  length pts = 4%nat →
  seed pts precision = Ok (Some (a, b, c, d)) →
  distinct_seed a b c d →
  Hull pts precision
  = Ok [IVec3 c b a; IVec3 a b d; IVec3 a d c; IVec3 c d b].
Proof.
  intros Hlen Hseed Hdis.
  assert (∃ pa pb pc pd,
            vget pts a = Ok pa ∧ vget pts b = Ok pb ∧
            vget pts c = Ok pc ∧ vget pts d = Ok pd)
    as (pa & pb & pc & pd & Ha & Hb & Hc & Hd).
  { apply seed_inv in Hseed
      as (trip & qa & qb & qc & qd & _ & Hqa & Hqb & Hqc & Hqd &
          -> & _ & -> & ->).
    destruct (d_gt _ precision); by eexists _, _, _, _. }
  assert (∀ k, 0 ≤ k < 4 → k = a ∨ k = b ∨ k = c ∨ k = d) as Hall.
  { apply vget_range in Ha, Hb, Hc, Hd. rewrite Hlen in Ha, Hb, Hc, Hd.
    unfold distinct_seed in Hdis. lia. }
  unfold Hull, HullTable. rewrite bool_decide_eq_false_2 by lia.
  rewrite Hseed; simpl.
  rewrite (AddTri_append pts a b c _ pa pb pc) by done; simpl.
  rewrite (AddTri_append pts d b a _ pd pb pa) by done; simpl.
  rewrite (AddTri_append pts c d a _ pc pd pa) by done; simpl.
  rewrite (AddTri_append pts b d c _ pb pd pc) by done; simpl.
  rewrite for_loop_skip; [done|].
  intros k Hk. unfold add_point. rewrite bool_decide_eq_true_2; [done|].
  apply Hall. lia.
Qed.

End Seed.

(** ** The scale of the one-argument overload *)

Section ScaleMax.
Context {F D : Type} `{!FloatOps F D}.
Hypothesis gt_irrefl : ∀ x : F, f_gt x x = false.
Hypothesis gt_trans :
  ∀ x y z : F, f_gt x y = true → f_gt y z = true → f_gt x z = true.

Lemma raise_above v s : f_gt v (raise v s) = false.
Proof.
  unfold raise. destruct (f_gt v s) eqn:Hv; [apply gt_irrefl | done].
Qed.

Lemma raise_keeps u v s : f_gt u s = false → f_gt u (raise v s) = false.
Proof.
  unfold raise. intros Hu. destruct (f_gt v s) eqn:Hv; [|done].
  destruct (f_gt u v) eqn:Huv; [|done].
  by rewrite (gt_trans _ _ _ Huv Hv) in Hu.
Qed.

Lemma raise_cases v s : raise v s = s ∨ raise v s = v.
Proof. unfold raise. destruct (f_gt v s); auto. Qed.

Lemma scale_from_cons (p : vec3 F) rest s :
  scale_from (p :: rest) s
  = scale_from rest
      (raise (f_abs (vz p))
         (raise (f_abs (vy p)) (raise (f_abs (vx p)) s))).
Proof. reflexivity. Qed.

Lemma scale_from_keeps rest :
  ∀ u s, f_gt u s = false → f_gt u (scale_from rest s) = false.
Proof.
  induction rest as [|p rest IH]; intros u s Hu; [done|].
  rewrite scale_from_cons. apply IH. by do 3 apply raise_keeps.
Qed.

(** No coordinate is above the scale. *)
Lemma scale_from_bound rest :
  ∀ s (p : vec3 F), p ∈ rest →
    f_gt (f_abs (vx p)) (scale_from rest s) = false ∧
    f_gt (f_abs (vy p)) (scale_from rest s) = false ∧
    f_gt (f_abs (vz p)) (scale_from rest s) = false.
Proof.
  induction rest as [|q rest IH]; intros s p Hp.
  - by apply elem_of_nil in Hp.
  - apply elem_of_cons in Hp as [->|Hp]; [|by apply IH].
    rewrite scale_from_cons. repeat split; apply scale_from_keeps.
    + do 2 apply raise_keeps. apply raise_above.
    + apply raise_keeps, raise_above.
    + apply raise_above.
Qed.

(** The scale is its initial value or the absolute value of a
    coordinate. *)
Lemma scale_from_attained rest :
  ∀ s, scale_from rest s = s ∨
       ∃ p : vec3 F, p ∈ rest ∧
            (scale_from rest s = f_abs (vx p) ∨
             scale_from rest s = f_abs (vy p) ∨
             scale_from rest s = f_abs (vz p)).
Proof.
  induction rest as [|q rest IH]; intros s; [by left|].
  rewrite scale_from_cons.
  set (s1 := raise (f_abs (vx q)) s).
  set (s2 := raise (f_abs (vy q)) s1).
  set (s3 := raise (f_abs (vz q)) s2).
  destruct (IH s3) as [->|(p & Hp & Hcase)].
  - assert (s3 = s ∨ s3 = f_abs (vx q) ∨ s3 = f_abs (vy q) ∨
            s3 = f_abs (vz q)) as [?|Hq].
    { unfold s3, s2, s1.
      destruct (raise_cases (f_abs (vz q))
                  (raise (f_abs (vy q)) (raise (f_abs (vx q)) s)))
        as [->| ->]; [|auto].
      destruct (raise_cases (f_abs (vy q)) (raise (f_abs (vx q)) s))
        as [->| ->]; [|auto].
      destruct (raise_cases (f_abs (vx q)) s) as [->| ->]; auto. }
    + by left.
    + right. exists q. split; [by left|]. tauto.
  - right. exists p. split; [by right | done].
Qed.

End ScaleMax.

(** ** The loop over the half edges runs to its end *)

Section Total.
Context {F D : Type} `{!FloatOps F D} `{!UnorderedSet}.
Implicit Types (st : FaceTable F) (pts : list (vec3 F)).

Lemma AddTri_total pts a b c st :
  wf st → valid_tri (Z.of_nat (length pts)) (IVec3 c b a) →
  ∃ st', AddTri pts a b c st = Ok st'.
Proof.
  intros (Hp & Hk & _ & Hdr) (Hc & Hb & Ha); simpl in *.
  destruct (vget_total pts a Ha) as [pa Hpa].
  destruct (vget_total pts b Hb) as [pb Hpb].
  destruct (vget_total pts c Hc) as [pc Hpc].
  unfold AddTri. rewrite Hpa, Hpb, Hpc; simpl.
  destruct (last (dropped st)) as [idx|] eqn:Hlast; [|by eexists].
  assert (0 ≤ idx < Z.of_nat (length (kept st))) as Hidx.
  { apply last_Some in Hlast as [ds Hds].
    eapply vget_range, Hdr. rewrite Hds. apply elem_of_app. right.
    by apply list_elem_of_singleton. }
  unfold vset. rewrite !bool_decide_eq_true_2 by lia. by eexists.
Qed.

Lemma add_faces_total pts i es :
  ∀ st,
    wf st →
    (∀ e, e ∈ es → valid_tri (Z.of_nat (length pts)) (IVec3 i (ey e) (ex e))) →
    ∃ st', add_faces pts i es st = Ok st'.
Proof.
  induction es as [|e es IH]; intros st Hwf Hval; simpl; [by eexists|].
  destruct (AddTri_total pts (ex e) (ey e) i st Hwf) as [st1 H1].
  { apply Hval. by left. }
  rewrite H1; simpl. apply IH.
  - by eapply AddTri_wf.
  - intros e' He'. apply Hval. by right.
Qed.

(** After a scan that collected no edge from a vertex to itself, the
    loop over the half edges ends and has created one face for each
    collected edge whose reverse was not collected. *)
Lemma horizon_total pts precision i st st1 S :
  reachable pts precision st →
  scan pts precision i (st, []) = Ok (st1, S) →
  (∀ e, e ∈ S → ex e ≠ ey e) →
  ∃ st2 cur,
    horizon pts i S S st1 = Ok (st2, cur) ∧
    add_faces pts i (horizon_edges S) st1 = Ok st2.
Proof.
  intros Hr Hscan Hloop.
  pose proof (scan_reachable _ _ _ _ _ _ _ Hr Hscan) as Hwf1%reachable_wf.
  pose proof (reachable_valid _ _ _ Hr) as Hval.
  apply scan_spec in Hscan as (_ & _ & _ & Hnd & Hin);
    [|by eapply reachable_wf].
  destruct (add_faces_total pts i (horizon_edges S) st1 Hwf1) as [st2 H2].
  { intros e [_ He]%list_elem_of_filter.
    apply Hin in He as [He|(j & t & Hc & Hvt & He)];
      [by apply elem_of_nil in He|].
    destruct Hc as (p & pl & _ & Hp%vget_range & _).
    rewrite Forall_forall in Hval.
    destruct (Hval t (vget_elem_of _ _ _ Hvt)) as (Hx & Hy & Hz).
    unfold valid_tri.
    apply elem_of_cons in He as [->|He];
      [|apply elem_of_cons in He as [->|He];
        [|apply list_elem_of_singleton in He as ->]];
      simpl; done. }
  pose proof (horizon_spec pts i S st1 (Hnd (NoDup_nil_2)) Hloop) as Hspec.
  rewrite H2 in Hspec.
  destruct (horizon pts i S S st1) as [[st2' cur]|f]; [|discriminate].
  injection Hspec as ->. by exists st2, cur.
Qed.

End Total.

(** ** Exact arithmetic: the plane normal and the winding of a face *)

Section ExactNormal.
Import Exact.
#[local] Open Scope R_scope.


End ExactNormal.

(** * The claims *)

(** Closes a goal by evaluating a decidable proposition. *)
Ltac by_compute := apply (bool_decide_unpack _); vm_compute; exact I.

Section Claims.
Context {F D : Type} `{!FloatOps F D} `{!UnorderedSet}.
Implicit Types (st : FaceTable F) (pts : list (vec3 F)) (precision : D).

Lemma seed_faces_reachable pts precision a b c d st1 st2 st3 st4 :
  AddTri pts a b c empty_table = Ok st1 →
  AddTri pts d b a st1 = Ok st2 →
  AddTri pts c d a st2 = Ok st3 →
  AddTri pts b d c st3 = Ok st4 →
  reachable pts precision st4.
Proof.
  intros H1 H2 H3 H4.
  do 4 (eapply reach_add; [|eassumption]). apply reach_empty.
Qed.

(** C9 — in every state of a run the vectors [triangles], [planes] and
    [kept] have the same length and [dropped] lists the slots whose
    [kept] flag is false, each once; the result of [Hull] is the
    triangles of the slots whose flag is true, by increasing slot. *)
Theorem table_vectors_parallel pts precision :
  (∀ st, reachable pts precision st →
     length (planes st) = length (triangles st) ∧
     length (kept st) = length (triangles st) ∧
     NoDup (dropped st) ∧
     (∀ j : Z, j ∈ dropped st ↔ vget (kept st) j = Ok false)) ∧
  (∀ st, HullTable pts precision = Ok (Some st) →
     reachable pts precision st ∧ Hull pts precision = Ok (live st)).
Proof.
  split.
  - intros st Hr. by apply reachable_wf in Hr.
  - intros st Htb. split.
    + by apply HullTable_reachable.
    + by apply Hull_live.
Qed.

(** C5, as the code has it — the seed is [(trip.x, trip.z, trip.y, d)]
    when the fourth point [d] is in front of the plane of the triple, at
    a signed distance above the tolerance, and
    [(trip.x, trip.y, trip.z, d)] otherwise: the two in-plane indices
    are swapped exactly when [d] is in front. *)
Theorem seed_swaps_in_front pts precision a b c d :
  seed pts precision = Ok (Some (a, b, c, d)) →
  ∃ trip pa pb pc pd,
    NonCollinearTriple pts precision = Ok trip ∧
    vget pts (ix trip) = Ok pa ∧ vget pts (iy trip) = Ok pb ∧
    vget pts (iz trip) = Ok pc ∧ vget pts d = Ok pd ∧
    a = ix trip ∧
    d_gt (d_abs (DistanceToPlane pd (PlaneOfPts pa pb pc))) precision
      = true ∧
    b = (if d_gt (DistanceToPlane pd (PlaneOfPts pa pb pc)) precision
         then iz trip else iy trip) ∧
    c = (if d_gt (DistanceToPlane pd (PlaneOfPts pa pb pc)) precision
         then iy trip else iz trip).
Proof. apply seed_inv. Qed.

(** C6, as the code has it — an insertion into the set of half edges
    adds the edge and removes nothing, so that an edge and its reverse
    can both be in the set during the conflict scan; it is the loop over
    the half edges that cancels: when it has ended the set holds no edge
    together with its reverse. *)
Theorem edges_cancel_in_horizon_loop pts i S st st' cur' :
  horizon pts i S S st = Ok (st', cur') →
  (∀ e l, e ∈ us_insert e l ∧ ∀ e', e' ∈ l → e' ∈ us_insert e l) ∧
  (∀ e, e ∈ cur' → rev_edge e ∉ cur').
Proof.
  intros Hrun. split.
  - intros e l. split.
    + apply elem_of_us_insert. by left.
    + intros e' He'. apply elem_of_us_insert. by right.
  - by eapply horizon_cancel.
Qed.

(** C3, as the code has it — at the end of the conflict scan for point
    [i] no live face has [i] in front of its plane by more than the
    tolerance; a point is not tested against the faces created later. *)
Theorem scan_clears_conflicts pts precision i st h st' h' :
  reachable pts precision st →
  scan pts precision i (st, h) = Ok (st', h') →
  ∀ j p pl,
    vget (kept st') j = Ok true → vget pts i = Ok p →
    vget (planes st') j = Ok pl →
    d_gt (DistanceToPlane p pl) precision = false.
Proof.
  intros Hr Hscan j p pl Hk Hp Hpl.
  apply scan_spec in Hscan as (_ & Hpe & Hkept & _);
    [|by eapply reachable_wf].
  apply Hkept in Hk as [Hk Hnc]. rewrite Hpe in Hpl.
  destruct (d_gt (DistanceToPlane p pl) precision) eqn:Hgt; [|done].
  exfalso. apply Hnc. by exists p, pl.
Qed.

(** C10, as the code has it — every triangle of the result has three
    valid indices into the point sequence, and three different ones when
    the four seed indices are different. *)
Theorem output_indices pts precision out :
  Hull pts precision = Ok out →
  (∀ t, t ∈ out → valid_tri (Z.of_nat (length pts)) t) ∧
  (∀ a b c d,
     seed pts precision = Ok (Some (a, b, c, d)) →
     distinct_seed a b c d →
     ∀ t, t ∈ out → distinct_tri t).
Proof.
  intros [[_ ->] | (st & Htb & ->)]%Hull_inv.
  - split; [|intros a b c d _ _]; intros t Ht; by apply elem_of_nil in Ht.
  - split.
    + intros t (j & Ht & _)%elem_of_live.
      pose proof (reachable_valid _ _ _ (HullTable_reachable _ _ _ Htb))
        as Hval.
      rewrite Forall_forall in Hval. apply Hval.
      by eapply list_elem_of_lookup_2.
    + intros a b c d Hseed Hd t (j & Ht & _)%elem_of_live.
      pose proof (HullTable_distinct _ _ _ _ _ _ _ Hseed Hd Htb) as Hdis.
      rewrite Forall_forall in Hdis. apply Hdis.
      by eapply list_elem_of_lookup_2.
Qed.

(** C2, as the code has it — [Hull] returns the empty sequence for fewer
    than four points and when no point is off the plane of the triple by
    more than the tolerance; when four seed points are found the result
    is the live faces of a table of at least four slots, and it is empty
    exactly when every slot of that table is dead; for four points with
    four different seed indices it is the four seed faces. *)
Theorem Hull_empty_cases pts precision :
  (Z.of_nat (length pts) < 4 → Hull pts precision = Ok []) ∧
  (4 ≤ Z.of_nat (length pts) → seed pts precision = Ok None →
   Hull pts precision = Ok []) ∧
  (∀ s out,
     4 ≤ Z.of_nat (length pts) →
     seed pts precision = Ok (Some s) →
     Hull pts precision = Ok out →
     ∃ st, HullTable pts precision = Ok (Some st) ∧
           (4 ≤ length (triangles st))%nat ∧
           out = live st ∧
           (out = [] ↔ Forall (λ k, k = false) (kept st))) ∧
  (∀ a b c d,
     length pts = 4%nat →
     seed pts precision = Ok (Some (a, b, c, d)) →
     distinct_seed a b c d →
     Hull pts precision
     = Ok [IVec3 c b a; IVec3 a b d; IVec3 a d c; IVec3 c d b]).
Proof.
  split; [apply Hull_short|]. split; [apply Hull_coplanar|].
  split; [|apply Hull_tetrahedron].
  intros s out Hlen Hseed [[Htb _] | (st & Htb & ->)]%Hull_inv.
  - unfold HullTable in Htb. rewrite bool_decide_eq_false_2 in Htb by lia.
    rewrite Hseed in Htb; simpl in Htb. destruct s as [[[a b] c] d].
    apply bind_Ok in Htb as (st1 & _ & Htb).
    apply bind_Ok in Htb as (st2 & _ & Htb).
    apply bind_Ok in Htb as (st3 & _ & Htb).
    apply bind_Ok in Htb as (st4 & _ & Htb).
    apply bind_Ok in Htb as ([st5 h] & _ & Htb).
    discriminate.
  - exists st. split; [done|]. split; [by eapply HullTable_length|].
    split; [done|]. apply live_nil.
    by apply HullTable_reachable, reachable_wf in Htb as (_ & ? & _).
Qed.

End Claims.


(** ** IEEE arithmetic: the order of the comparisons *)

Section Order.
Import IEEE.

Lemma lex_lt e1 m1 e2 m2 :
  lex e1 m1 e2 m2 = Lt ↔ e1 < e2 ∨ (e1 = e2 ∧ (m1 < m2)%positive).
Proof.
  unfold lex. change (Pos.compare_cont Eq m1 m2) with (Pos.compare m1 m2).
  destruct (Z.compare_spec e1 e2) as [->|?|?].
  - rewrite Pos.compare_lt_iff. split; [by right|].
    intros [?|[_ ?]]; [lia|done].
  - split; [by left|done].
  - split; [done|lia].
Qed.

Lemma lex_gt e1 m1 e2 m2 :
  lex e1 m1 e2 m2 = Gt ↔ e2 < e1 ∨ (e1 = e2 ∧ (m2 < m1)%positive).
Proof.
  unfold lex. change (Pos.compare_cont Eq m1 m2) with (Pos.compare m1 m2).
  destruct (Z.compare_spec e1 e2) as [->|?|?].
  - rewrite Pos.compare_gt_iff. split; [by right|].
    intros [?|[_ ?]]; [lia|done].
  - split; [done|lia].
  - split; [by left|done].
Qed.

Lemma SFltb_finite s1 m1 e1 s2 m2 e2 :
  SFltb (S754_finite s1 m1 e1) (S754_finite s2 m2 e2) = true ↔
  match s1, s2 with
  | true, false => True
  | false, true => False
  | false, false => lex e1 m1 e2 m2 = Lt
  | true, true => lex e1 m1 e2 m2 = Gt
  end.
Proof.
  unfold SFltb, SFcompare, lex.
  destruct s1, s2; try done;
    destruct (e1 ?= e2); try done;
    destruct (Pos.compare_cont Eq m1 m2); simpl; done.
Qed.

Lemma SFltb_irrefl x : SFltb x x = false.
Proof.
  destruct x as [[|]|[|]| |s m e]; try done.
  apply not_true_is_false. rewrite SFltb_finite.
  destruct s; [rewrite lex_gt | rewrite lex_lt]; lia.
Qed.

Lemma SFltb_trans x y z :
  SFltb x y = true → SFltb y z = true → SFltb x z = true.
Proof.
  destruct x as [[|]|[|]| |s1 m1 e1], y as [[|]|[|]| |s2 m2 e2],
    z as [[|]|[|]| |s3 m3 e3];
    try done; try (by destruct s1); try (by destruct s2);
    try (by destruct s3); try (by destruct s1, s2);
    try (by destruct s2, s3); try (by destruct s1, s3).
  rewrite !SFltb_finite.
  destruct s1, s2, s3; try done; rewrite ?lex_lt, ?lex_gt; lia.
Qed.

(** X18 — the tolerance that [Hull_pts] passes on is [1e-9] times a scale that
    no coordinate exceeds in absolute value, and that is 0 or the absolute
    value of a coordinate: the greatest of them, NaN apart. *)
Lemma Hull_pts_scale `{!UnorderedSet} (pts : list (vec3 spec_float)) :
  let scale := scale_from pts (S754_zero false) in
  Hull_pts pts = Hull pts (f64_mul d_1em9 (convert 53 1024 scale)) ∧
  (∀ p, p ∈ pts →
     gt (SFabs (vx p)) scale = false ∧
     gt (SFabs (vy p)) scale = false ∧
     gt (SFabs (vz p)) scale = false) ∧
  (scale = S754_zero false ∨
   ∃ p, p ∈ pts ∧
        (scale = SFabs (vx p) ∨ scale = SFabs (vy p) ∨
         scale = SFabs (vz p))).
Proof.
  assert (∀ x : spec_float, f_gt x x = false) as Hirr.
  { intros x. apply SFltb_irrefl. }
  assert (∀ x y z : spec_float,
            f_gt x y = true → f_gt y z = true → f_gt x z = true) as Htr.
  { intros x y z Hxy Hyz. exact (SFltb_trans z y x Hyz Hxy). }
  split; [reflexivity|]. split.
  - intros p Hp. by apply (scale_from_bound Hirr Htr).
  - exact (scale_from_attained (D := spec_float) pts (S754_zero false)).
Qed.

End Order.

(** ** IEEE arithmetic: a face with a repeated vertex is never in conflict *)

Section Inert.
Import IEEE.
Context `{!UnorderedSet}.

Lemma sub_self x : zn (f32_sub x x).
Proof.
  destruct x as [s|s| |s m e]; try (by destruct s); [done|].
  unfold f32_sub, SFsub. rewrite Z.sub_diag. done.
Qed.

Lemma mul_zn_r x y : zn y → zn (f32_mul x y).
Proof. destruct x as [s|s| |s m e], y as [t|t| |t n f]; done. Qed.

Lemma mul_zn_l x y : zn x → zn (f32_mul x y).
Proof. destruct x as [s|s| |s m e], y as [t|t| |t n f]; done. Qed.

Lemma sub_zn x y : zn x → zn y → zn (f32_sub x y).
Proof.
  destruct x as [s|s| |s m e], y as [t|t| |t n f]; try done.
  by destruct s, t.
Qed.

Lemma add_zn x y : zn x → zn y → zn (f32_add x y).
Proof.
  destruct x as [s|s| |s m e], y as [t|t| |t n f]; try done.
  by destruct s, t.
Qed.

Lemma sqrt_zn x : zn x → zn (f32_sqrt x).
Proof. by destruct x as [s|s| |s m e]. Qed.

Lemma div_zn x y : zn x → zn y → zn (f32_div x y).
Proof. destruct x as [s|s| |s m e], y as [t|t| |t n f]; done. Qed.

Lemma convert_zn p q x : zn x → zn (convert p q x).
Proof. by destruct x as [s|s| |s m e]. Qed.

(** A zero or a NaN is above no tolerance, unless the tolerance is
    negative. *)
Lemma gt_zn x tol :
  zn x → SFltb tol (S754_zero false) = false → gt x tol = false.
Proof.
  unfold gt. destruct x as [s|s| |s m e]; try done.
  intros _ _. by destruct tol.
Qed.

Lemma sub3_self (a : vec3 spec_float) : zn3 (sub3 a a).
Proof. repeat split; apply sub_self. Qed.

Lemma cross_zn_r (a b : vec3 spec_float) : zn3 b → zn3 (cross a b).
Proof.
  intros (Hx & Hy & Hz).
  repeat split; simpl; apply sub_zn;
    (by apply mul_zn_r) || (by apply mul_zn_l).
Qed.

Lemma cross_zn_l (a b : vec3 spec_float) : zn3 a → zn3 (cross a b).
Proof.
  intros (Hx & Hy & Hz).
  repeat split; simpl; apply sub_zn;
    (by apply mul_zn_r) || (by apply mul_zn_l).
Qed.

Lemma cross_self (v : vec3 spec_float) : zn3 (cross v v).
Proof. repeat split; apply sub_self. Qed.

Lemma dot_zn_l (a b : vec3 spec_float) : zn3 a → zn (dot a b).
Proof.
  intros (Hx & Hy & Hz). unfold dot; simpl.
  repeat apply add_zn; by apply mul_zn_l.
Qed.

(** The plane of three points, two of which are the same, is the null
    plane or has four NaN. *)
Lemma plane_zn (a b c : vec3 spec_float) :
  a = b ∨ a = c ∨ b = c → zn4 (PlaneOfPts a b c).
Proof.
  intros Heq.
  assert (zn3 (cross (sub3 c a) (sub3 b a))) as Hcrx.
  { destruct Heq as [->|[->| ->]].
    - apply cross_zn_r, sub3_self.
    - apply cross_zn_l, sub3_self.
    - apply cross_self. }
  unfold PlaneOfPts.
  set (crx := cross (sub3 c a) (sub3 b a)) in *.
  assert (zn (length3 crx)) as Hn by (by apply sqrt_zn, dot_zn_l).
  destruct (d_eq (to_double (length3 crx)) d_zero); [done|].
  unfold div4, zn4. cbn [px py pz pw].
  pose proof (dot_zn_l crx a Hcrx) as Hw.
  destruct Hcrx as (Hx & Hy & Hz).
  repeat split; by apply div_zn.
Qed.

Lemma distance_zn (p : vec3 spec_float) (pl : vec4 spec_float) :
  zn4 pl → zn (DistanceToPlane p pl).
Proof.
  intros (Hx & Hy & Hz & Hw). unfold DistanceToPlane.
  apply convert_zn, sub_zn; [|done]. by apply dot_zn_l.
Qed.

(** With a tolerance that is not negative, a face in conflict with a point
    has three different vertices. *)
Lemma conflict_distinct pts (tol : spec_float) i st j t :
  SFltb tol (S754_zero false) = false →
  reachable pts tol st →
  conflict pts tol i st j →
  vget (triangles st) j = Ok t →
  distinct_tri t.
Proof.
  intros Htol Hr (p & pl & _ & _ & [_ Hpl]%vget_Ok & Hgt) [_ Ht]%vget_Ok.
  destruct (reachable_planes _ _ _ Hr _ _ _ Ht Hpl)
    as (pa & pb & pc & Ha & Hb & Hc & ->).
  assert (¬ (pa = pb ∨ pa = pc ∨ pb = pc)) as Hne.
  { intros Heq%plane_zn. apply (distance_zn p) in Heq.
    apply (gt_zn _ tol) in Heq; [|done].
    change (gt (DistanceToPlane p (PlaneOfPts pa pb pc)) tol = true) in Hgt.
    congruence. }
  repeat split; intros Heq; apply Hne; rewrite Heq in *.
  - right; right. congruence.
  - left. congruence.
  - right; left. congruence.
Qed.

Lemma scan_no_loops pts (tol : spec_float) i st st1 S :
  SFltb tol (S754_zero false) = false →
  reachable pts tol st →
  scan pts tol i (st, []) = Ok (st1, S) →
  ∀ e, e ∈ S → ex e ≠ ey e.
Proof.
  intros Htol Hr Hscan e He.
  apply scan_spec in Hscan as (_ & _ & _ & _ & Hin);
    [|by eapply reachable_wf].
  apply Hin in He as [He|(j & t & Hc & Hvt & He)];
    [by apply elem_of_nil in He|].
  destruct (conflict_distinct _ _ _ _ _ _ Htol Hr Hc Hvt) as (Hxy & Hyz & Hxz).
  apply elem_of_cons in He as [->|He];
    [|apply elem_of_cons in He as [->|He];
      [|apply list_elem_of_singleton in He as ->]];
    simpl; congruence.
Qed.

End Inert.


(** ** The code at concrete inputs *)

Section Evaluation.
Import IEEE Inputs.

(** C1 — four points of a line, and four times the same point: seed
    selection returns the sentinel and [Hull] indexes the point sequence
    with it. *)
Theorem Hull_collinear_reads_sentinel :
  NonCollinearTriple collinear4 zero = Ok (IVec3 (-1) (-1) (-1)) ∧
  Hull collinear4 zero = UB (OutOfBounds (-1)) ∧
  NonCollinearTriple coincident4 quarter = Ok (IVec3 (-1) (-1) (-1)) ∧
  Hull coincident4 quarter = UB (OutOfBounds (-1)).
Proof. repeat split; vm_compute; reflexivity. Qed.

(** C8 — four points at the origin: the tolerance that the one-argument
    overload derives is zero, and the call indexes the point sequence
    with the sentinel of [NonCollinearTriple]. *)
Theorem Hull_pts_origin_reads_sentinel :
  d_mul d_1em9 (to_double (scale_from origin4 f_zero)) = S754_zero false ∧
  Hull_pts origin4 = UB (OutOfBounds (-1)).
Proof. split; vm_compute; reflexivity. Qed.

(** C2 — five points of one plane pass seed selection with a zero
    tolerance (the fourth seed point is off the rounded plane) and the
    result is empty. *)
Lemma seed_passes_hull_empty : ¬ empty_iff_degenerate coplanar5 zero.
Proof.
  intros [_ Hne].
  destruct (Hne ltac:(vm_compute; discriminate) (0, 2, 1, 3)
                ltac:(vm_compute; reflexivity)) as (out & Hout & Hnil).
  vm_compute in Hout. by injection Hout as <-.
Qed.

(** The triple is [(0, 2, 1)]; point 3 is at distance [-2^-25] from its
    plane and point 4 at distance [2^-25]. *)
Example coplanar5_off_plane :
  NonCollinearTriple coplanar5 zero = Ok (IVec3 0 2 1) ∧
  DistanceToPlane (pt 0 (-2) (-1) (-1))
    (PlaneOfPts (pt 0 (-2) 1 (-7)) (pt 0 (-1) (-3) 7) (pt 0 3 0 6))
  = f64 (-1) (-25) ∧
  DistanceToPlane (pt 0 2 1 1)
    (PlaneOfPts (pt 0 (-2) 1 (-7)) (pt 0 (-1) (-3) 7) (pt 0 3 0 6))
  = f64 1 (-25) ∧
  seed coplanar5 zero = Ok (Some (0, 2, 1, 3)) ∧
  Hull coplanar5 zero = Ok [].
Proof. repeat split; vm_compute; reflexivity. Qed.

(** C3 — the lever: the face [(4, 3, 2)] of the result has the input
    point 0 in front of its plane by more than the tolerance 1/8. *)
Lemma lever_face_sees_point : ¬ output_convex lever eighth.
Proof.
  intros Hconv.
  destruct (Hull lever eighth) as [out|f] eqn:Hrun;
    [|vm_compute in Hrun; discriminate].
  pose proof Hrun as Hout. vm_compute in Hout. injection Hout as <-.
  assert (d_gt (DistanceToPlane (pt 0 (-10) 0 0)
                  (PlaneOfPts (pt 0 0 (-10) 0) (pt 0 0 10 0)
                              (pt (-4) 4 0 1))) eighth = false) as Hfalse.
  { apply (Hconv _ (IVec3 4 3 2) _ _ _ _ Hrun).
    - by_compute.
    - vm_compute; reflexivity.
    - vm_compute; reflexivity.
    - vm_compute; reflexivity.
    - unfold lever. by left. }
  vm_compute in Hfalse. discriminate.
Qed.

(** C5 — the tetrahedron on the axes: the fourth point is behind the
    plane of the triple [(0, 1, 2)], at distance -4, and the seed keeps
    the order of the triple. *)
Lemma tetra_behind_not_swapped : ¬ swapped_iff_behind tetra4 quarter.
Proof.
  intros Hc.
  destruct (Hc (IVec3 0 1 2) 0 1 2 3
              (pt 0 0 0 0) (pt 0 4 0 0) (pt 0 0 4 0) (pt 0 0 0 4))
    as [_ Hback]; try (vm_compute; reflexivity).
  destruct Hback as [Hb _]; [vm_compute; reflexivity|].
  discriminate Hb.
Qed.

(** The seed table of [notch] and the conflict scan for its fifth point,
    which is in front of the faces [(0, 1, 3)] and [(0, 3, 2)]. *)
Lemma notch_scan :
  ∃ st4 st' S,
    reachable notch quarter st4 ∧
    scan notch quarter 4 (st4, []) = Ok (st', S) ∧
    S = [IVec2 0 3; IVec2 3 1; IVec2 1 0; IVec2 0 2; IVec2 2 3; IVec2 3 0].
Proof.
  eexists _, _, _. split; [|split].
  - eapply (seed_faces_reachable notch quarter 0 1 2 3);
      vm_compute; reflexivity.
  - vm_compute; reflexivity.
  - reflexivity.
Qed.

(** C6 — at the end of that scan the set holds the edge [(0, 3)] and its
    reverse [(3, 0)]. *)
Lemma scan_holds_reverse_pair : ¬ no_reverse_pairs notch quarter.
Proof.
  intros Hc. destruct notch_scan as (st4 & st' & S & Hr & Hscan & ->).
  apply (Hc 4 st4 st' _ Hr Hscan (IVec2 0 3)); by_compute.
Qed.

(** C10 — a tetrahedron and a zero tolerance: [NonCoplanar] finds point
    0, a point of the triple, off the rounded plane; the seed is
    [(0, 2, 1, 0)] and the result has the triangle [(0, 2, 0)]. *)
Lemma rounding_repeats_seed_vertex : ¬ output_distinct skew4 zero.
Proof.
  intros Hc.
  destruct (Hull skew4 zero) as [out|f] eqn:Hrun;
    [|vm_compute in Hrun; discriminate].
  pose proof Hrun as Hout. vm_compute in Hout. injection Hout as <-.
  destruct (Hc _ (IVec3 0 2 0) Hrun) as [(_ & _ & Hxz) _]; [by_compute|].
  by apply Hxz.
Qed.

(** The triple is [(0, 1, 2)] and point 0 is at distance [2^-24] from its
    plane; the same happens with the tolerance of the one-argument
    overload. *)
Example skew4_first_point_off_plane :
  NonCollinearTriple skew4 zero = Ok (IVec3 0 1 2) ∧
  DistanceToPlane (pt 0 1 1 1)
    (PlaneOfPts (pt 0 1 1 1) (pt 0 (-1) 0 0) (pt 0 0 (-1) 0))
  = f64 1 (-24) ∧
  seed skew4 zero = Ok (Some (0, 2, 1, 0)) ∧
  Hull skew4 zero
  = Ok [IVec3 3 0 1; IVec3 0 2 0; IVec3 0 0 1; IVec3 1 0 2; IVec3 3 2 0;
        IVec3 3 1 2] ∧
  Hull_pts skew4
  = Ok [IVec3 3 0 1; IVec3 0 2 0; IVec3 0 0 1; IVec3 1 0 2; IVec3 3 2 0;
        IVec3 3 1 2].
Proof. repeat split; vm_compute; reflexivity. Qed.

(** *** The theorems at concrete inputs *)

Lemma table_vectors_parallel_witness :
  ∃ st,
    HullTable notch quarter = Ok (Some st) ∧
    reachable notch quarter st ∧
    length (kept st) = length (triangles st) ∧
    Hull notch quarter = Ok (live st).
Proof.
  eexists. split; [vm_compute; reflexivity|].
  destruct (table_vectors_parallel notch quarter) as [Hinv Hout].
  edestruct Hout as [Hr Hl]; [vm_compute; reflexivity|].
  split; [exact Hr|]. split; [|exact Hl].
  by destruct (Hinv _ Hr) as (_ & ? & _).
Defined.


Lemma seed_swaps_in_front_witness :
  seed lever eighth = Ok (Some (0, 2, 1, 3)) ∧
  ∃ trip pa pb pc pd,
    NonCollinearTriple lever eighth = Ok trip ∧
    vget lever (ix trip) = Ok pa ∧ vget lever (iy trip) = Ok pb ∧
    vget lever (iz trip) = Ok pc ∧ vget lever 3 = Ok pd ∧
    0 = ix trip ∧
    d_gt (d_abs (DistanceToPlane pd (PlaneOfPts pa pb pc))) eighth = true ∧
    2 = (if d_gt (DistanceToPlane pd (PlaneOfPts pa pb pc)) eighth
         then iz trip else iy trip) ∧
    1 = (if d_gt (DistanceToPlane pd (PlaneOfPts pa pb pc)) eighth
         then iy trip else iz trip).
Proof.
  split; [vm_compute; reflexivity|].
  apply (seed_swaps_in_front lever eighth 0 2 1 3).
  vm_compute; reflexivity.
Defined.

Lemma edges_cancel_in_horizon_loop_witness :
  ∃ st1 S st2 cur,
    horizon notch 4 S S st1 = Ok (st2, cur) ∧
    IVec2 0 3 ∈ S ∧ IVec2 3 0 ∈ S ∧
    ∀ e, e ∈ cur → rev_edge e ∉ cur.
Proof.
  destruct notch_scan as (st4 & st1 & S & Hr & Hscan & HS).
  destruct (horizon_total notch quarter 4 st4 st1 S Hr Hscan)
    as (st2 & cur & Hhor & _).
  { rewrite HS. apply Forall_forall. by_compute. }
  exists st1, S, st2, cur. split; [exact Hhor|].
  split; [rewrite HS; by_compute|]. split; [rewrite HS; by_compute|].
  by destruct (edges_cancel_in_horizon_loop notch 4 S st1 st2 cur Hhor)
    as [_ ?].
Defined.

(** The seed table of [lever] and the conflict scan for its fifth
    point. *)
Lemma lever_scan :
  ∃ st4 st' h',
    reachable lever eighth st4 ∧
    scan lever eighth 4 (st4, []) = Ok (st', h').
Proof.
  eexists _, _, _. split.
  - eapply (seed_faces_reachable lever eighth 0 2 1 3);
      vm_compute; reflexivity.
  - vm_compute; reflexivity.
Qed.

Lemma scan_clears_conflicts_witness :
  ∃ st4 st' h',
    scan lever eighth 4 (st4, []) = Ok (st', h') ∧
    ∀ j p pl,
      vget (kept st') j = Ok true → vget lever 4 = Ok p →
      vget (planes st') j = Ok pl →
      d_gt (DistanceToPlane p pl) eighth = false.
Proof.
  destruct lever_scan as (st4 & st' & h' & Hr & Hscan).
  exists st4, st', h'. split; [exact Hscan|].
  exact (scan_clears_conflicts lever eighth 4 st4 [] st' h' Hr Hscan).
Defined.

Lemma output_indices_witness :
  ∃ out,
    Hull notch quarter = Ok out ∧
    (∀ t, t ∈ out → valid_tri 5 t) ∧
    (∀ t, t ∈ out → distinct_tri t).
Proof.
  eexists. split; [vm_compute; reflexivity|].
  edestruct (output_indices notch quarter) as [Hval Hdis];
    [vm_compute; reflexivity|].
  split; [exact Hval|].
  apply (Hdis 0 1 2 3); [vm_compute; reflexivity|].
  unfold distinct_seed. lia.
Defined.

Lemma Hull_empty_cases_witness :
  Hull short3 quarter = Ok [] ∧
  Hull square4 quarter = Ok [] ∧
  (∃ st out,
     Hull notch quarter = Ok out ∧
     HullTable notch quarter = Ok (Some st) ∧
     (4 ≤ length (triangles st))%nat ∧
     out = live st ∧
     (out = [] ↔ Forall (λ k, k = false) (kept st))) ∧
  Hull tetra4 quarter
  = Ok [IVec3 2 1 0; IVec3 0 1 3; IVec3 0 3 2; IVec3 2 3 1].
Proof.
  split; [|split; [|split]].
  - destruct (Hull_empty_cases short3 quarter) as (H1 & _ & _ & _).
    apply H1. vm_compute; reflexivity.
  - destruct (Hull_empty_cases square4 quarter) as (_ & H2 & _ & _).
    apply H2.
    + vm_compute; discriminate.
    + vm_compute; reflexivity.
  - destruct (Hull_empty_cases notch quarter) as (_ & _ & H3 & _).
    edestruct (H3 (0, 1, 2, 3)) as (st & Htb & Hlen & Hout & Hnil);
      [vm_compute; discriminate|vm_compute; reflexivity
      |vm_compute; reflexivity|].
    eexists st, _. split; [vm_compute; reflexivity|].
    exact (conj Htb (conj Hlen (conj Hout Hnil))).
  - destruct (Hull_empty_cases tetra4 quarter) as (_ & _ & _ & H4).
    apply (H4 0 1 2 3).
    + reflexivity.
    + vm_compute; reflexivity.
    + unfold distinct_seed. lia.
Defined.


End Evaluation.

(** * Further properties

    Properties of the code that the claims above leave out: the hash of
    the half edges, the ends of a call, seed selection, and the geometry
    of the planes and of the seed in exact arithmetic. *)

(** ** The hash of a half edge *)

Section Hash.

Lemma land_shiftl_low k x :
  0 ≤ x < 2 ^ 16 → Z.land (Z.shiftl k 16) x = 0.
Proof.
  intros Hx. apply Z.bits_inj'. intros n Hn.
  rewrite Z.land_spec, Z.bits_0.
  destruct (decide (n < 16)) as [Hlt|Hge].
  - rewrite Z.shiftl_spec_low by done. done.
  - rewrite (Z.bits_above_log2 x n); [by rewrite andb_false_r|lia|].
    destruct (decide (x = 0)) as [->|Hx0]; [simpl; lia|].
    apply Z.log2_lt_pow2; [lia|].
    assert (2 ^ 16 ≤ 2 ^ n) by (apply Z.pow_le_mono_r; lia). lia.
Qed.

Lemma lxor_shiftl_low k x :
  0 ≤ x < 2 ^ 16 → Z.lxor (Z.shiftl k 16) x = k * 2 ^ 16 + x.
Proof.
  intros Hx. rewrite <- Z.add_nocarry_lxor by (by apply land_shiftl_low).
  by rewrite Z.shiftl_mul_pow2.
Qed.

Lemma wrap32_shiftl y :
  0 ≤ y < 2 ^ 16 →
  wrap32 (Z.shiftl y 16)
  = Z.shiftl (if bool_decide (y < 2 ^ 15) then y else y - 2 ^ 16) 16.
Proof.
  intros Hy. unfold wrap32. rewrite !Z.shiftl_mul_pow2 by lia.
  case_bool_decide as Hc.
  - rewrite Z.mod_small; lia.
  - replace (y * 2 ^ 16 + 2 ^ 31)
      with ((y * 2 ^ 16 - 2 ^ 31) + 1 * 2 ^ 32) by lia.
    rewrite Z.mod_add by lia. rewrite Z.mod_small; lia.
Qed.

Lemma IVec2Hash_value x y :
  0 ≤ x < 2 ^ 16 → 0 ≤ y < 2 ^ 16 →
  IVec2Hash (IVec2 x y)
  = if bool_decide (y < 2 ^ 15) then y * 2 ^ 16 + x
    else 2 ^ 64 - 2 ^ 32 + y * 2 ^ 16 + x.
Proof.
  intros Hx Hy. unfold IVec2Hash; simpl.
  rewrite wrap32_shiftl, lxor_shiftl_low by done.
  case_bool_decide as Hc.
  - rewrite Z.mod_small; lia.
  - replace ((y - 2 ^ 16) * 2 ^ 16 + x)
      with ((2 ^ 64 - 2 ^ 32 + y * 2 ^ 16 + x) + (-1) * 2 ^ 64) by lia.
    rewrite Z.mod_add by lia. rewrite Z.mod_small; lia.
Qed.

End Hash.

(** X1 — the hash separates the half edges of a mesh of at most 65536
    points: two different edges with indices below [2^16] have different
    hashes, also when the shift leaves the range of [int]. *)
Theorem IVec2Hash_separates (e e' : ivec2) :
  0 ≤ ex e < 2 ^ 16 → 0 ≤ ey e < 2 ^ 16 →
  0 ≤ ex e' < 2 ^ 16 → 0 ≤ ey e' < 2 ^ 16 →
  e ≠ e' → IVec2Hash e ≠ IVec2Hash e'.
Proof.
  destruct e as [x y], e' as [x' y']; simpl. intros Hx Hy Hx' Hy' Hne.
  rewrite !IVec2Hash_value by done.
  intros Heq. apply Hne. repeat case_bool_decide; f_equal; lia.
Qed.

(** X2 — for indices [x] below [2^16] and [y] below [2^15] the hash is
    [x + 65536 * y]: [x] in the low 16 bits and [y] above them.  A first
    index of [2^16] or more reaches the bits of [y]: the edge
    [(x + 65536 * y, 0)] has the hash of the edge [(x, y)]. *)
Theorem IVec2Hash_collides (x y : Z) :
  0 ≤ x < 2 ^ 16 → 0 ≤ y < 2 ^ 15 →
  IVec2Hash (IVec2 x y) = x + 65536 * y ∧
  IVec2Hash (IVec2 (x + 65536 * y) 0) = IVec2Hash (IVec2 x y).
Proof.
  intros Hx Hy. split.
  - rewrite IVec2Hash_value by lia. rewrite bool_decide_eq_true_2 by lia. lia.
  - rewrite (IVec2Hash_value x y) by lia.
    rewrite bool_decide_eq_true_2 by lia.
    unfold IVec2Hash; simpl. change (wrap32 0) with 0.
    rewrite Z.lxor_0_l. rewrite Z.mod_small; lia.
Qed.

(** ** Counted loops and lists *)

Lemma for_loop_outcome {St : Type} (P : Z → St → Prop) (Q : Prop)
    (f0 : fault) (body : Z → St → result St) (n : nat) :
  ∀ (i : Z) (s : St),
    P i s →
    (∀ k t, i ≤ k < i + Z.of_nat n → P k t →
       (∃ t', body k t = Ok t' ∧ P (k + 1) t') ∨ (body k t = UB f0 ∧ Q)) →
    (∃ s', for_loop n i body s = Ok s' ∧ P (i + Z.of_nat n) s')
    ∨ (for_loop n i body s = UB f0 ∧ Q).
Proof.
  induction n as [|n IH]; intros i s HP Hstep; simpl.
  - left. exists s. by rewrite Z.add_0_r.
  - destruct (Hstep i s) as [(t & Hb & Ht) | [Hb HQ]]; [lia|done| |].
    + rewrite Hb; simpl.
      replace (i + Z.of_nat (S n)) with ((i + 1) + Z.of_nat n) by lia.
      apply IH; [done|]. intros k u Hk. apply Hstep. lia.
    + right. by rewrite Hb.
Qed.

Lemma for_loop_total {St : Type} (P : Z → St → Prop)
    (body : Z → St → result St) (n : nat) (i : Z) (s : St) :
  P i s →
  (∀ k t, i ≤ k < i + Z.of_nat n → P k t →
     ∃ t', body k t = Ok t' ∧ P (k + 1) t') →
  ∃ s', for_loop n i body s = Ok s' ∧ P (i + Z.of_nat n) s'.
Proof.
  intros HP Hstep.
  destruct (for_loop_outcome P False IteratorInvalidated body n i s HP)
    as [?|[_ []]]; [|done].
  intros k t Hk Ht. left. by apply Hstep.
Qed.

Lemma for_loop_sim {S1 S2 : Type} (R : Z → S1 → S2 → Prop)
    (body1 : Z → S1 → result S1) (body2 : Z → S2 → result S2) (n : nat) :
  ∀ (i : Z) (s1 : S1) (s2 : S2) (s1' : S1),
    R i s1 s2 →
    (∀ k t1 t2 t1', i ≤ k < i + Z.of_nat n → R k t1 t2 →
       body1 k t1 = Ok t1' →
       ∃ t2', body2 k t2 = Ok t2' ∧ R (k + 1) t1' t2') →
    for_loop n i body1 s1 = Ok s1' →
    ∃ s2', for_loop n i body2 s2 = Ok s2' ∧ R (i + Z.of_nat n) s1' s2'.
Proof.
  induction n as [|n IH]; intros i s1 s2 s1' HR Hstep Hrun; simpl in *.
  - injection Hrun as <-. exists s2. by rewrite Z.add_0_r.
  - apply bind_Ok in Hrun as (t1 & Hb & Hrun).
    destruct (Hstep i s1 s2 t1) as (t2 & Hb2 & HR'); [lia|done|done|].
    rewrite Hb2; simpl.
    replace (i + Z.of_nat (S n)) with ((i + 1) + Z.of_nat n) by lia.
    eapply IH; [exact HR'| |exact Hrun].
    intros k u1 u2 u1' Hk. apply Hstep. lia.
Qed.

Lemma filter_insert_Permutation {A : Type} (P : A → Prop)
    `{∀ x, Decision (P x)} (l : list A) (i : nat) (x y : A) :
  l !! i = Some x → ¬ P x → P y →
  filter P (<[i := y]> l) ≡ₚ y :: filter P l.
Proof.
  intros Hl Hx Hy.
  rewrite insert_take_drop by (by eapply lookup_lt_Some).
  rewrite <- (take_drop_middle l i x Hl) at 3.
  rewrite !filter_app, !filter_cons.
  rewrite decide_True by done. rewrite decide_False by done.
  by rewrite Permutation_middle.
Qed.


(** ** Which runs end, and how the others fail *)

Section Outcome.
Context {F D : Type} `{!FloatOps F D} `{!UnorderedSet}.
Implicit Types (st : FaceTable F) (pts rest : list (vec3 F)).

Lemma furthest_from_range (p0 : vec3 F) rest :
  ∀ i f dist,
    (furthest_from p0 i rest f dist).1 = f
    ∨ i ≤ (furthest_from p0 i rest f dist).1 < i + Z.of_nat (length rest).
Proof.
  induction rest as [|p rest IH]; intros i f dist; simpl; [by left|].
  destruct (d_gt _ _).
  - destruct (IH (i + 1) i (to_float (to_double (distance p0 p))))
      as [-> | ?]; right; lia.
  - destruct (IH (i + 1) f dist) as [-> | ?]; [by left | right; lia].
Qed.

Lemma third_from_range (p0 n : vec3 F) rest :
  ∀ i third offset,
    (third_from p0 n i rest third offset).1 = third
    ∨ i ≤ (third_from p0 n i rest third offset).1 < i + Z.of_nat (length rest).
Proof.
  induction rest as [|p rest IH]; intros i third offset; simpl; [by left|].
  destruct (d_gt _ _).
  - destruct (IH (i + 1) i (DistanceToVector (sub3 p p0) n))
      as [-> | ?]; right; lia.
  - destruct (IH (i + 1) third offset) as [-> | ?]; [by left | right; lia].
Qed.

(** With two points at least [NonCollinearTriple] reads inside the
    sequence and returns the sentinel or three indices of points. *)
Lemma NonCollinearTriple_total pts precision :
  2 ≤ Z.of_nat (length pts) →
  ∃ t, NonCollinearTriple pts precision = Ok t ∧
       (t = IVec3 (-1) (-1) (-1)
        ∨ (ix t = 0 ∧ 1 ≤ iy t < Z.of_nat (length pts) ∧
           1 ≤ iz t < Z.of_nat (length pts))).
Proof.
  intros Hlen. unfold NonCollinearTriple.
  destruct (vget_total pts 0) as [p0 Hp0]; [lia|].
  destruct (vget_total pts 1) as [p1 Hp1]; [lia|].
  rewrite Hp0, Hp1; simpl.
  pose proof (furthest_from_range p0 (drop 2 pts) 2 1 (distance p0 p1)) as Hf.
  destruct (furthest_from p0 2 (drop 2 pts) 1 (distance p0 p1))
    as [furthest dist]; simpl in Hf.
  rewrite length_drop in Hf.
  destruct (d_le (to_double dist) precision); [eexists; split; [done|by left]|].
  destruct (vget_total pts furthest) as [pf Hpf]; [lia|].
  rewrite Hpf; simpl.
  pose proof (third_from_range p0 (div3 (sub3 p0 pf) dist) (drop 1 pts) 1
                (-1) (d_mul (to_double dist) precision)) as Ht.
  destruct (third_from p0 (div3 (sub3 p0 pf) dist) 1 (drop 1 pts) (-1)
              (d_mul (to_double dist) precision)) as [third off];
    simpl in Ht.
  rewrite length_drop in Ht.
  case_bool_decide as Hthird; [eexists; split; [done|by left]|].
  eexists; split; [done|]. right. simpl. lia.
Qed.

(** Seed selection ends, when [NonCollinearTriple] found a triple, with
    no fourth point or with four indices of points. *)
Lemma seed_total pts precision t :
  NonCollinearTriple pts precision = Ok t →
  t ≠ IVec3 (-1) (-1) (-1) →
  seed pts precision = Ok None
  ∨ ∃ a b c d,
      seed pts precision = Ok (Some (a, b, c, d)) ∧
      0 ≤ a < Z.of_nat (length pts) ∧ 0 ≤ b < Z.of_nat (length pts) ∧
      0 ≤ c < Z.of_nat (length pts) ∧ 0 ≤ d < Z.of_nat (length pts).
Proof.
  intros Ht Hne.
  assert (2 ≤ Z.of_nat (length pts)) as Hlen.
  { unfold NonCollinearTriple in Ht.
    apply bind_Ok in Ht as (p0 & Hp0 & Ht).
    apply bind_Ok in Ht as (p1 & Hp1%vget_range & _). lia. }
  destruct (NonCollinearTriple_total pts precision Hlen)
    as (t' & Ht' & Hcase).
  rewrite Ht in Ht'. injection Ht' as <-.
  destruct Hcase as [?|(Hx & Hy & Hz)]; [done|].
  unfold seed. rewrite Ht; simpl.
  destruct (vget_total pts (ix t)) as [pa Hpa]; [lia|].
  destruct (vget_total pts (iy t)) as [pb Hpb]; [lia|].
  destruct (vget_total pts (iz t)) as [pc Hpc]; [lia|].
  rewrite Hpa, Hpb, Hpc; simpl.
  destruct (NonCoplanar pts (PlaneOfPts pa pb pc) precision)
    as [d above] eqn:Hnc.
  apply NonCoplanar_spec in Hnc as [[-> ->] | (pd & Hpd%vget_range & _)].
  - left. done.
  - right. rewrite bool_decide_eq_false_2 by lia.
    eexists _, _, _, _. split; [done|].
    destruct above; lia.
Qed.

Lemma scan_face_total pts precision i j st h :
  wf st →
  0 ≤ i < Z.of_nat (length pts) →
  0 ≤ j < Z.of_nat (length (triangles st)) →
  ∃ s', scan_face pts precision i j (st, h) = Ok s'.
Proof.
  intros (Hp & Hk & _) Hi Hj. unfold scan_face.
  destruct (vget_total (kept st) j) as [k Hkj]; [lia|].
  destruct (vget_total pts i) as [p Hpi]; [lia|].
  destruct (vget_total (planes st) j) as [pl Hpl]; [lia|].
  destruct (vget_total (triangles st) j) as [t Htj]; [lia|].
  rewrite Hkj; simpl. destruct k; simpl; [|by eexists].
  rewrite Hpi, Hpl; simpl.
  destruct (d_gt _ _); [|by eexists].
  rewrite Htj; simpl. unfold vset.
  rewrite bool_decide_eq_true_2 by lia. by eexists.
Qed.

(** The conflict scan reads and writes inside the table. *)
Lemma scan_total pts precision i st h :
  wf st →
  0 ≤ i < Z.of_nat (length pts) →
  ∃ s', scan pts precision i (st, h) = Ok s'.
Proof.
  intros Hwf Hi. unfold scan; simpl.
  destruct (for_loop_total
              (λ _ s, wf s.1 ∧ triangles s.1 = triangles st)
              (scan_face pts precision i) (length (triangles st)) 0 (st, h))
    as (s' & Hs' & _); [done| |by exists s'].
  intros k [t u] Hk [Hwt Htt]; simpl in *.
  destruct (scan_face_total pts precision i k t u) as [[t' u'] Hstep];
    [done|done|rewrite Htt; lia|].
  exists (t', u'). split; [done|]. simpl. split.
  - by eapply scan_face_wf.
  - apply scan_face_inv in Hstep
      as [(-> & _ & _) | (t0 & _ & _ & _ & -> & _)]; done.
Qed.

(** The loop over the half edges ends, unless it meets an edge from a
    vertex to itself. *)
Lemma horizon_outcome pts i work :
  ∀ cur st,
    wf st →
    (∀ e, e ∈ work →
       valid_tri (Z.of_nat (length pts)) (IVec3 i (ey e) (ex e))) →
    (∃ r, horizon pts i work cur st = Ok r)
    ∨ (horizon pts i work cur st = UB IteratorInvalidated ∧
       ∃ e, e ∈ work ∧ ex e = ey e).
Proof.
  induction work as [|e work IH]; intros cur st Hwf Hval; simpl.
  - left. by eexists.
  - assert (∀ e', e' ∈ work →
              valid_tri (Z.of_nat (length pts)) (IVec3 i (ey e') (ex e')))
      as Hval'.
    { intros e' He'. apply Hval. by right. }
    assert (∀ cur' st',
              wf st' →
              (∃ r, horizon pts i work cur' st' = Ok r)
              ∨ (horizon pts i work cur' st' = UB IteratorInvalidated ∧
                 ∃ e0, e0 ∈ e :: work ∧ ex e0 = ey e0)) as IH'.
    { intros cur' st' Hwf'.
      destruct (IH cur' st' Hwf' Hval') as [?|[? (e0 & ? & ?)]]; [by left|].
      right. split; [done|]. exists e0. split; [by right | done]. }
    case_bool_decide as Hin; [|by apply IH'].
    case_bool_decide as Hfix.
    + right. split; [done|]. exists e. split; [by left|].
      destruct e as [u v]; simpl in *. congruence.
    + case_bool_decide as Hr; [by apply IH'|].
      destruct (AddTri_total pts (ex e) (ey e) i st Hwf) as [st1 H1].
      { apply Hval. by left. }
      rewrite H1; simpl. apply IH'. by eapply AddTri_wf.
Qed.

(** One turn of the loop over the points. *)
Lemma add_point_outcome pts precision a b c d i st :
  reachable pts precision st →
  0 ≤ i < Z.of_nat (length pts) →
  (∃ st', add_point pts precision a b c d i (st, []) = Ok (st', []))
  ∨ (add_point pts precision a b c d i (st, []) = UB IteratorInvalidated ∧
     ∃ st1 S e,
       scan pts precision i (st, []) = Ok (st1, S) ∧ e ∈ S ∧ ex e = ey e).
Proof.
  intros Hr Hi. unfold add_point.
  case_bool_decide as Hseed; [left; by eexists|].
  destruct (scan_total pts precision i st [] (reachable_wf _ _ _ Hr) Hi)
    as [[st1 S] Hscan].
  rewrite Hscan; simpl.
  pose proof (scan_reachable _ _ _ _ _ _ _ Hr Hscan) as Hwf1%reachable_wf.
  pose proof (reachable_valid _ _ _ Hr) as Hval.
  pose proof Hscan as (_ & _ & _ & _ & Hin)%scan_spec;
    [|by eapply reachable_wf].
  destruct (horizon_outcome pts i S S st1 Hwf1)
    as [[[st2 cur] H2] | [H2 (e & He & Hloop)]].
  - intros e He.
    apply Hin in He as [He|(j & t & Hc & Hvt & He)];
      [by apply elem_of_nil in He|].
    rewrite Forall_forall in Hval.
    destruct (Hval t (vget_elem_of _ _ _ Hvt)) as (Hx & Hy & Hz).
    unfold valid_tri.
    apply elem_of_cons in He as [->|He];
      [|apply elem_of_cons in He as [->|He];
        [|apply list_elem_of_singleton in He as ->]];
      simpl; done.
  - left. rewrite H2; simpl. by eexists.
  - right. rewrite H2; simpl. split; [done|]. by exists st1, S, e.
Qed.

(** A call of [Hull] returns, or reads [pts[-1]] after
    [NonCollinearTriple] returned its sentinel, or erases the half edge
    under the iterator of line 125 — an edge from a vertex to itself that
    a conflict scan collected. *)
Lemma Hull_outcome pts precision :
  (∃ out, Hull pts precision = Ok out)
  ∨ (4 ≤ Z.of_nat (length pts) ∧
     NonCollinearTriple pts precision = Ok (IVec3 (-1) (-1) (-1)) ∧
     Hull pts precision = UB (OutOfBounds (-1)))
  ∨ (Hull pts precision = UB IteratorInvalidated ∧
     ∃ i st st1 S e,
       reachable pts precision st ∧
       scan pts precision i (st, []) = Ok (st1, S) ∧ e ∈ S ∧ ex e = ey e).
Proof.
  destruct (decide (Z.of_nat (length pts) < 4)) as [Hlen|Hlen].
  { left. exists []. by apply Hull_short. }
  destruct (NonCollinearTriple_total pts precision) as (t & Ht & Hcase);
    [lia|].
  destruct (decide (t = IVec3 (-1) (-1) (-1))) as [->|Hne].
  { right; left. split; [lia|]. split; [done|].
    apply Hull_sentinel; [lia | done]. }
  destruct (seed_total pts precision t Ht Hne)
    as [Hseed | (a & b & c & d & Hseed & Ha & Hb & Hc & Hd)].
  { left. exists []. apply Hull_coplanar; [lia | done]. }
  destruct (AddTri_total pts a b c empty_table) as [st1 H1];
    [apply wf_empty | by unfold valid_tri|].
  destruct (AddTri_total pts d b a st1) as [st2 H2];
    [by eapply AddTri_wf, H1; apply wf_empty | by unfold valid_tri|].
  assert (reachable pts precision st2) as Hr2.
  { do 2 (eapply reach_add; [|eassumption]). apply reach_empty. }
  destruct (AddTri_total pts c d a st2) as [st3 H3];
    [by apply reachable_wf in Hr2 | by unfold valid_tri|].
  destruct (AddTri_total pts b d c st3) as [st4 H4];
    [by eapply AddTri_wf, H3; apply reachable_wf in Hr2
    | by unfold valid_tri|].
  assert (reachable pts precision st4) as Hr4.
  { do 2 (eapply reach_add; [|eassumption]). done. }
  destruct (for_loop_outcome
              (λ _ s, reachable pts precision s.1 ∧ s.2 = [])
              (∃ i st st1 S e,
                 reachable pts precision st ∧
                 scan pts precision i (st, []) = Ok (st1, S) ∧
                 e ∈ S ∧ ex e = ey e)
              IteratorInvalidated
              (add_point pts precision a b c d) (length pts) 0 (st4, []))
    as [([st5 h5] & Hloop & Hr5 & _) | [Hloop HQ]]; [done| | |].
  - intros k [t' u] Hk [Hrt Hu]; simpl in *. subst u.
    destruct (add_point_outcome pts precision a b c d k t' Hrt)
      as [[t'' Hstep] | [Hstep (s1 & S & e & Hscan & He & Hloop)]]; [lia| |].
    + left. exists (t'', []). split; [done|]. split; [|done].
      by eapply add_point_reachable.
    + right. split; [done|]. by exists k, t', s1, S, e.
  - left. simpl in Hr5. exists (live st5).
    unfold Hull, HullTable. rewrite bool_decide_eq_false_2 by done.
    rewrite Hseed; simpl. rewrite H1; simpl. rewrite H2; simpl.
    rewrite H3; simpl. rewrite H4; simpl. rewrite Hloop; simpl.
    apply collect_live. by apply reachable_wf in Hr5 as (_ & ? & _).
  - right; right. split; [|done].
    unfold Hull, HullTable. rewrite bool_decide_eq_false_2 by done.
    rewrite Hseed; simpl. rewrite H1; simpl. rewrite H2; simpl.
    rewrite H3; simpl. rewrite H4; simpl. by rewrite Hloop.
Qed.

End Outcome.

Section Unseen.
Context {F D : Type} `{!FloatOps F D} `{!UnorderedSet}.
Implicit Types (st : FaceTable F) (pts : list (vec3 F)).

(** X21 — a point that is in conflict with no face changes nothing: its
    turn of the loop over the points leaves the face table as it was,
    with no slot dropped and no face created. *)
Theorem add_point_unseen pts precision a b c d i st :
  reachable pts precision st →
  0 ≤ i < Z.of_nat (length pts) →
  (∀ j, ¬ conflict pts precision i st j) →
  add_point pts precision a b c d i (st, []) = Ok (st, []).
Proof.
  intros Hr Hi Hnone. unfold add_point. case_bool_decide; [done|].
  assert (scan pts precision i (st, []) = Ok (st, [])) as ->.
  { unfold scan. apply for_loop_skip. intros k Hk; simpl in Hk.
    destruct (scan_face_total pts precision i k st []
                (reachable_wf _ _ _ Hr) Hi) as [[st' h'] Hstep]; [lia|].
    pose proof Hstep as [(-> & -> & _) | (t & Hc & _)]%scan_face_inv;
      [done|].
    by apply Hnone in Hc. }
  done.
Qed.

End Unseen.

Section SeedGeneric.
Context {F D : Type} `{!FloatOps F D}.
Implicit Types (pts rest : list (vec3 F)).

Lemma NonCoplanar_from_first rest (plane : vec4 F) (precision : D) :
  ∀ i d above,
    NonCoplanar_from i rest plane precision = (d, above) →
    (d = -1 ∧ above = false ∧
     ∀ p, p ∈ rest →
          d_gt (d_abs (DistanceToPlane p plane)) precision = false)
    ∨ (∃ pd, i ≤ d ∧ rest !! Z.to_nat (d - i) = Some pd ∧
             d_gt (d_abs (DistanceToPlane pd plane)) precision = true ∧
             above = d_gt (DistanceToPlane pd plane) precision ∧
             ∀ (k : nat) p,
               (k < Z.to_nat (d - i))%nat → rest !! k = Some p →
               d_gt (d_abs (DistanceToPlane p plane)) precision = false).
Proof.
  induction rest as [|q rest IH]; intros i d above Hrun; simpl in Hrun.
  - left. injection Hrun as <- <-. do 2 (split; [done|]).
    intros p Hp. by apply elem_of_nil in Hp.
  - destruct (d_gt (d_abs (DistanceToPlane q plane)) precision) eqn:Hoff.
    + right. injection Hrun as <- <-. exists q.
      rewrite Z.sub_diag. split; [lia|]. do 3 (split; [done|]).
      intros k p Hk. simpl in Hk. lia.
    + apply IH in Hrun
        as [(-> & -> & Hall)|(pd & Hd & Hl & Hpd & Habove & Hbefore)].
      * left. do 2 (split; [done|]).
        intros p [->|Hp]%elem_of_cons; [done | by apply Hall].
      * right. exists pd. split; [lia|].
        replace (Z.to_nat (d - i)) with (S (Z.to_nat (d - (i + 1)))) by lia.
        do 3 (split; [done|]).
        intros [|k] p Hk Hp; [by injection Hp as <-|].
        apply (Hbefore k); [lia | done].
Qed.

End SeedGeneric.

(** X9 — [NonCoplanar] returns the first point of the sequence that is
    farther than [precision] from the plane, with the side of the plane it
    is on; it returns -1 exactly when it has found every point within
    [precision] of the plane. *)
Theorem NonCoplanar_first {F D : Type} (ops : FloatOps F D)
    (pts : list (vec3 F)) (plane : vec4 F) (precision : D)
    (d : Z) (above : bool) :
  NonCoplanar pts plane precision = (d, above) →
  (d = -1 ∧ above = false ∧
   ∀ p, p ∈ pts →
        d_gt (d_abs (DistanceToPlane p plane)) precision = false)
  ∨ (∃ pd, vget pts d = Ok pd ∧
           d_gt (d_abs (DistanceToPlane pd plane)) precision = true ∧
           above = d_gt (DistanceToPlane pd plane) precision ∧
           ∀ j p, 0 ≤ j < d → vget pts j = Ok p →
                  d_gt (d_abs (DistanceToPlane p plane)) precision = false).
Proof.
  intros [?|(pd & Hd & Hl & Hpd & Habove & Hbefore)]%NonCoplanar_from_first;
    [by left|].
  rewrite Z.sub_0_r in Hl, Hbefore.
  right. exists pd. split; [by apply vget_Ok|]. do 2 (split; [done|]).
  intros j p Hj [_ Hp]%vget_Ok. apply (Hbefore (Z.to_nat j)); [lia | done].
Qed.

(** X6 — [NonCollinearTriple] reads [pts[0]] and [pts[1]] before any test:
    on fewer than two points it reads outside the sequence.  On two points
    or more it reads inside and returns the sentinel or the index 0 with
    two indices of points other than 0. *)
Theorem NonCollinearTriple_indices {F D : Type} (ops : FloatOps F D)
    (pts : list (vec3 F)) (precision : D) :
  (pts = [] → NonCollinearTriple pts precision = UB (OutOfBounds 0)) ∧
  (length pts = 1%nat →
   NonCollinearTriple pts precision = UB (OutOfBounds 1)) ∧
  (2 ≤ Z.of_nat (length pts) →
   ∃ t, NonCollinearTriple pts precision = Ok t ∧
        (t = IVec3 (-1) (-1) (-1)
         ∨ (ix t = 0 ∧ 1 ≤ iy t < Z.of_nat (length pts) ∧
            1 ≤ iz t < Z.of_nat (length pts)))).
Proof.
  split; [|split].
  - by intros ->.
  - intros Hlen. by destruct pts as [|p [|q pts]].
  - apply NonCollinearTriple_total.
Qed.

(** X14 — how a call of [Hull] can end, whatever the arithmetic and the
    order of the hash set.  It returns; or [NonCollinearTriple] returned
    its sentinel and line 76 reads [pts[-1]]; or a conflict scan collected
    an edge from a vertex to itself and line 126 erases it under the
    iterator of the loop.  No other access is outside a vector. *)
Theorem Hull_returns_or_faults {F D : Type} (ops : FloatOps F D)
    (us : UnorderedSet) (pts : list (vec3 F)) (precision : D) :
  (∃ out, Hull pts precision = Ok out)
  ∨ (4 ≤ Z.of_nat (length pts) ∧
     NonCollinearTriple pts precision = Ok (IVec3 (-1) (-1) (-1)) ∧
     Hull pts precision = UB (OutOfBounds (-1)))
  ∨ (Hull pts precision = UB IteratorInvalidated ∧
     ∃ i st st1 S e,
       reachable pts precision st ∧
       scan pts precision i (st, []) = Ok (st1, S) ∧ e ∈ S ∧ ex e = ey e).
Proof. apply Hull_outcome. Qed.

(** ** IEEE arithmetic: the tolerances that are not negative, and NaN *)

Section Safety.
Import IEEE.
Context `{!UnorderedSet}.
Implicit Types (pts : list (vec3 spec_float)) (x y tol : spec_float).

(** The values that are not below zero: the zeros, NaN, and the positive
    numbers and infinity. *)
Lemma not_negative_cases x :
  SFltb x (S754_zero false) = false ↔
  match x with
  | S754_zero _ | S754_nan => True
  | S754_infinity s | S754_finite s _ _ => s = false
  end.
Proof. destruct x as [[|]|[|]| |[|] m e]; split; done. Qed.

Lemma round_not_negative prec emax mx e lx :
  SFltb (binary_round_aux prec emax false mx e lx) (S754_zero false) = false.
Proof.
  unfold binary_round_aux.
  destruct (shr_fexp prec emax mx e lx) as [mrs' e'].
  destruct (shr_fexp prec emax _ e' loc_Exact) as [mrs'' e''].
  destruct (shr_m mrs''); [done| |done].
  by destruct (e'' <=? emax - prec).
Qed.

Lemma convert_not_negative prec emax x :
  SFltb x (S754_zero false) = false →
  SFltb (convert prec emax x) (S754_zero false) = false.
Proof.
  destruct x as [s|s| |s m e]; try done.
  intros Hs%not_negative_cases. subst s. simpl.
  unfold binary_round. destruct (shl_align _ _ _) as [mz ez].
  apply round_not_negative.
Qed.

Lemma mul_not_negative m e y :
  SFltb y (S754_zero false) = false →
  SFltb (f64_mul (S754_finite false m e) y) (S754_zero false) = false.
Proof.
  destruct y as [s|s| |s m' e']; intros Hs%not_negative_cases;
    try subst s; try done.
  apply round_not_negative.
Qed.

Lemma abs_not_negative x : SFltb (SFabs x) (S754_zero false) = false.
Proof. by destruct x. Qed.

Lemma scale_from_not_negative pts :
  ∀ s, SFltb s (S754_zero false) = false →
       SFltb (scale_from pts s) (S754_zero false) = false.
Proof.
  induction pts as [|p pts IH]; intros s Hs; [done|].
  rewrite scale_from_cons. apply IH.
  assert (∀ v s', SFltb s' (S754_zero false) = false →
                  SFltb (raise (SFabs v) s') (S754_zero false) = false)
    as Hraise.
  { intros v s' Hs'. unfold raise.
    destruct (f_gt (SFabs v) s'); [apply abs_not_negative | done]. }
  by do 3 apply Hraise.
Qed.

(** The tolerance of the one-argument overload is never negative. *)
Lemma Hull_pts_tolerance pts :
  SFltb (d_mul d_1em9 (to_double (scale_from pts f_zero))) (S754_zero false)
  = false.
Proof.
  assert (d_1em9 = S754_finite false 4835703278458517 (-82)) as ->
    by (vm_compute; reflexivity).
  apply mul_not_negative, convert_not_negative.
  by apply scale_from_not_negative.
Qed.

End Safety.

(** X15 — IEEE arithmetic, a tolerance that is not negative: whatever the
    points, [Hull] returns, or [NonCollinearTriple] returned its sentinel
    and [Hull] reads [pts[-1]].  It makes no other access outside a vector
    and never erases the half edge under the iterator. *)
Theorem Hull_safe_but_sentinel (us : UnorderedSet)
    (pts : list (vec3 spec_float)) (tolerance : spec_float) :
  SFltb tolerance (S754_zero false) = false →
  (∃ out, Hull pts tolerance = Ok out)
  ∨ (4 ≤ Z.of_nat (length pts) ∧
     NonCollinearTriple pts tolerance = Ok (IVec3 (-1) (-1) (-1)) ∧
     Hull pts tolerance = UB (OutOfBounds (-1))).
Proof.
  intros Htol.
  destruct (Hull_outcome pts tolerance)
    as [?|[?|[_ (i & st & st1 & S & e & Hr & Hscan & He & Hloop)]]];
    [by left | by right|].
  exfalso. by eapply scan_no_loops.
Qed.

(** X16 — the one-argument overload in IEEE arithmetic: the tolerance it
    derives is never negative, and the call returns or reads [pts[-1]]
    after the sentinel of [NonCollinearTriple]. *)
Theorem Hull_pts_safe_but_sentinel (us : UnorderedSet)
    (pts : list (vec3 spec_float)) :
  let tolerance := d_mul d_1em9 (to_double (scale_from pts f_zero)) in
  SFltb tolerance (S754_zero false) = false ∧
  ((∃ out, Hull_pts pts = Ok out)
   ∨ (4 ≤ Z.of_nat (length pts) ∧
      NonCollinearTriple pts tolerance = Ok (IVec3 (-1) (-1) (-1)) ∧
      Hull_pts pts = UB (OutOfBounds (-1)))).
Proof.
  intros tolerance. split; [apply Hull_pts_tolerance|].
  unfold Hull_pts. fold tolerance.
  destruct (Hull_outcome pts tolerance)
    as [?|[?|[_ (i & st & st1 & S & e & Hr & Hscan & He & Hloop)]]];
    [by left | by right|].
  exfalso. eapply scan_no_loops; [|exact Hr|exact Hscan|exact He|exact Hloop].
  apply Hull_pts_tolerance.
Qed.

Section NaNTolerance.
Import IEEE.
Implicit Types (pts rest : list (vec3 spec_float)).

Lemma third_from_nan (p0 n : vec3 spec_float) rest :
  ∀ i third,
    third_from p0 n i rest third S754_nan = (third, S754_nan).
Proof.
  induction rest as [|p rest IH]; intros i third; [done|].
  cbn [third_from].
  assert (d_gt (DistanceToVector (sub3 p p0) n) S754_nan = false) as ->.
  { cbn [d_gt ops]. unfold gt, SFltb. done. }
  apply IH.
Qed.

Lemma NonCollinearTriple_nan pts :
  2 ≤ Z.of_nat (length pts) →
  NonCollinearTriple pts S754_nan = Ok (IVec3 (-1) (-1) (-1)).
Proof.
  intros Hlen. unfold NonCollinearTriple.
  destruct (vget_total pts 0) as [p0 Hp0]; [lia|].
  destruct (vget_total pts 1) as [p1 Hp1]; [lia|].
  rewrite Hp0, Hp1. unfold mbind, result_bind. cbv beta iota.
  pose proof (furthest_from_range p0 (drop 2 pts) 2 1 (distance p0 p1)) as Hf.
  destruct (furthest_from p0 2 (drop 2 pts) 1 (distance p0 p1))
    as [furthest dist]; simpl in Hf.
  rewrite length_drop in Hf.
  assert (d_le (to_double dist) S754_nan = false) as ->.
  { cbn [d_le to_double ops]. unfold SFleb.
    by destruct (convert 53 1024 dist). }
  destruct (vget_total pts furthest) as [pf Hpf]; [lia|].
  rewrite Hpf. cbv beta iota.
  assert (d_mul (to_double dist) S754_nan = S754_nan) as ->.
  { cbn [d_mul to_double ops]. unfold f64_mul.
    by destruct (convert 53 1024 dist). }
  by rewrite third_from_nan.
Qed.

End NaNTolerance.

(** X17 — a NaN as tolerance: every comparison with it is false, so
    [NonCollinearTriple] passes its first test, finds no third point and
    returns the sentinel, and [Hull] reads [pts[-1]] on every input of four
    points or more. *)
Theorem Hull_nan_tolerance (us : UnorderedSet)
    (pts : list (vec3 spec_float)) :
  4 ≤ Z.of_nat (length pts) →
  NonCollinearTriple pts S754_nan = Ok (IVec3 (-1) (-1) (-1)) ∧
  Hull pts S754_nan = UB (OutOfBounds (-1)).
Proof.
  intros Hlen.
  assert (NonCollinearTriple pts S754_nan = Ok (IVec3 (-1) (-1) (-1))) as Ht
    by (apply NonCollinearTriple_nan; lia).
  split; [done|]. by apply Hull_sentinel.
Qed.

(** ** Exact arithmetic: planes and distances *)

Section ExactGeometry.
Import Exact.
#[local] Open Scope R_scope.
Implicit Types (a b c p q v : vec3 R).





















End ExactGeometry.

(** ** Exact arithmetic: seed selection *)

Section ExactSeed.
Import Exact.
#[local] Open Scope R_scope.
Implicit Types (a b c p q v : vec3 R) (pts rest : list (vec3 R)).

















End ExactSeed.

(** ** Exact arithmetic: the faces of the hull *)

Section LivePlanes.
Context {F D : Type} `{!FloatOps F D} `{!UnorderedSet}.
Implicit Types (st : FaceTable F) (pts : list (vec3 F)) (Q : vec4 F → Prop).



End LivePlanes.

Section ExactHull.
Import Exact.
Context `{!UnorderedSet}.
#[local] Open Scope R_scope.
Implicit Types (a b c p q v : vec3 R) (pts rest : list (vec3 R)).
Implicit Types (st : FaceTable R).




End ExactHull.





(** ** The traversal order of the hash set does not change the result *)

Section OrderGeneric.
Context {F D : Type} `{!FloatOps F D} `{!UnorderedSet}.
Implicit Types (st : FaceTable F) (pts : list (vec3 F)) (t : ivec3).

Lemma vget_point_at pts i p : vget pts i = Ok p → point_at pts i = p.
Proof. intros [_ Hl]%vget_Ok. unfold point_at. by rewrite Hl. Qed.

Lemma reachable_plane_for pts precision st (j : nat) t pl :
  reachable pts precision st →
  triangles st !! j = Some t → planes st !! j = Some pl →
  pl = plane_for pts t.
Proof.
  intros Hr Ht Hpl.
  destruct (reachable_planes _ _ _ Hr _ _ _ Ht Hpl)
    as (pa & pb & pc & Ha%vget_point_at & Hb%vget_point_at &
        Hc%vget_point_at & ->).
  unfold plane_for. by rewrite Ha, Hb, Hc.
Qed.

Lemma conflict_sees pts precision i st (j : nat) t b :
  reachable pts precision st →
  0 ≤ i < Z.of_nat (length pts) →
  triangles st !! j = Some t → kept st !! j = Some b →
  conflict pts precision i st (Z.of_nat j) ↔
  b = true ∧ sees pts precision i t = true.
Proof.
  intros Hr Hi Ht Hb.
  pose proof (reachable_wf _ _ _ Hr) as (Hp & Hk & _).
  destruct (lookup_lt_is_Some_2 (planes st) j) as [pl Hpl].
  { rewrite Hp. by eapply lookup_lt_Some. }
  pose proof (reachable_plane_for _ _ _ _ _ _ Hr Ht Hpl) as ->.
  destruct (vget_total pts i Hi) as [p Hpi].
  pose proof (vget_point_at _ _ _ Hpi) as Hpa.
  assert (∀ {A} (l : list A) x,
            vget l (Z.of_nat j) = Ok x ↔ l !! j = Some x) as Hvg.
  { intros A l x. rewrite vget_Ok, Nat2Z.id. split; [by intros [_ ?]|].
    intros ?. split; [lia | done]. }
  unfold conflict, sees. rewrite Hpa. split.
  - intros (p' & pl' & Hk'%Hvg & Hp' & Hpl'%Hvg & Hgt).
    rewrite Hpi in Hp'. injection Hp' as <-.
    rewrite Hpl in Hpl'. injection Hpl' as <-.
    rewrite Hb in Hk'. injection Hk' as ->. done.
  - intros [-> Hgt]. exists p, (plane_for pts t).
    rewrite !Hvg. done.
Qed.

Lemma live_zip_filter (g : ivec3 → bool) (ts : list ivec3) :
  ∀ ks : list bool,
    (filter (λ tk : ivec3 * bool, tk.2 = true)
       (zip ts (zip_with (λ k t, k && negb (g t)) ks ts))).*1
    = filter (λ t, g t = false)
        (filter (λ tk : ivec3 * bool, tk.2 = true) (zip ts ks)).*1.
Proof.
  induction ts as [|t ts IH]; intros [|k ks]; try done.
  simpl. rewrite !filter_cons. cbn [snd].
  destruct k, (g t) eqn:Hg; simpl.
  - rewrite filter_cons, decide_False by congruence. apply IH.
  - rewrite filter_cons, decide_True by done. f_equal. apply IH.
  - apply IH.
  - apply IH.
Qed.

(** The conflict scan keeps the live faces that do not see the point. *)
Lemma scan_live pts precision i st h st' h' :
  reachable pts precision st →
  0 ≤ i < Z.of_nat (length pts) →
  scan pts precision i (st, h) = Ok (st', h') →
  live st' = filter (λ t, sees pts precision i t = false) (live st).
Proof.
  intros Hr Hi Hscan.
  pose proof (reachable_wf _ _ _ Hr) as (Hp & Hk & _).
  pose proof (scan_reachable _ _ _ _ _ _ _ Hr Hscan)
    as (_ & Hk' & _)%reachable_wf.
  apply scan_spec in Hscan as (Ht & _ & Hkept & _);
    [|by eapply reachable_wf].
  assert (kept st'
          = zip_with (λ k t, k && negb (sees pts precision i t))
              (kept st) (triangles st)) as Hks.
  { apply list_eq. intros j. rewrite lookup_zip_with.
    destruct (kept st !! j) as [b|] eqn:Hb; simpl.
    - destruct (lookup_lt_is_Some_2 (triangles st) j) as [t Htj].
      { rewrite <- Hk. by eapply lookup_lt_Some. }
      destruct (lookup_lt_is_Some_2 (kept st') j) as [b' Hb'].
      { rewrite Hk', Ht, <- Hk. by eapply lookup_lt_Some. }
      rewrite Htj, Hb'; simpl. f_equal.
      specialize (Hkept (Z.of_nat j)).
      rewrite (conflict_sees pts precision i st j t b Hr Hi Htj Hb) in Hkept.
      rewrite !vget_Ok, !Nat2Z.id, Hb, Hb' in Hkept.
      assert (∀ x : bool,
                (0 ≤ Z.of_nat j ∧ Some x = Some true) ↔ x = true) as Hsome.
      { intros x. split; [by intros [_ [= ->]]|].
        intros ->. split; [lia | done]. }
      rewrite !Hsome in Hkept.
      destruct b', b, (sees pts precision i t); simpl; try done;
        exfalso; intuition congruence.
    - apply lookup_ge_None. rewrite Hk', Ht, <- Hk.
      by apply lookup_ge_None. }
  unfold live. rewrite Hks, Ht. apply live_zip_filter.
Qed.

(** The half edges that the scan collects are those of the live faces
    that see the point. *)
Lemma scan_edges pts precision i st st' S :
  reachable pts precision st →
  0 ≤ i < Z.of_nat (length pts) →
  scan pts precision i (st, []) = Ok (st', S) →
  NoDup S ∧
  ∀ e, e ∈ S ↔
       ∃ t, t ∈ live st ∧ sees pts precision i t = true ∧ e ∈ face_edges t.
Proof.
  intros Hr Hi Hscan.
  pose proof (reachable_wf _ _ _ Hr) as (Hp & Hk & _).
  apply scan_spec in Hscan as (_ & _ & _ & Hnd & Hin);
    [|by eapply reachable_wf].
  split; [apply Hnd; constructor|].
  intros e. rewrite Hin. split.
  - intros [He|(j & t & Hc & Hvt & He)]; [by apply elem_of_nil in He|].
    pose proof (conflict_range _ _ _ _ _ Hc) as Hj.
    apply vget_Ok in Hvt as [_ Hvt].
    destruct (lookup_lt_is_Some_2 (kept st) (Z.to_nat j)) as [b Hb].
    { rewrite Hk. by eapply lookup_lt_Some. }
    replace j with (Z.of_nat (Z.to_nat j)) in Hc by lia.
    apply (conflict_sees pts precision i st _ t b Hr Hi Hvt Hb) in Hc
      as [-> Hsees].
    exists t. split; [|done]. apply elem_of_live. by exists (Z.to_nat j).
  - intros (t & (j & Ht & Hb)%elem_of_live & Hsees & He).
    right. exists (Z.of_nat j), t. split; [|split; [|done]].
    + by apply (conflict_sees pts precision i st j t true Hr Hi Ht Hb).
    + apply vget_Ok. rewrite Nat2Z.id. split; [lia | done].
Qed.

(** [AddTri] adds its triangle to the live faces. *)
Lemma AddTri_live pts a b c st st' :
  wf st → AddTri pts a b c st = Ok st' →
  live st' ≡ₚ IVec3 c b a :: live st.
Proof.
  intros (Hp & Hk & _ & Hdr) Hadd.
  apply AddTri_inv in Hadd as (pa & pb & pc & _ & _ & _ & Hcase).
  destruct Hcase as [(ds & idx & Hds & Hi1 & _ & Hi3 & ->) | [_ ->]];
    unfold live; simpl.
  - assert (kept st !! Z.to_nat idx = Some false) as Hfalse.
    { assert (vget (kept st) idx = Ok false) as [_ ?]%vget_Ok; [|done].
      apply Hdr. rewrite Hds. apply elem_of_app. right.
      by apply list_elem_of_singleton. }
    destruct (lookup_lt_is_Some_2 (triangles st) (Z.to_nat idx)) as [t0 Ht0];
      [lia|].
    assert (zip (<[Z.to_nat idx := IVec3 c b a]> (triangles st))
                (<[Z.to_nat idx := true]> (kept st))
            = <[Z.to_nat idx := (IVec3 c b a, true)]>
                (zip (triangles st) (kept st))) as ->.
    { symmetry. apply insert_zip_with. }
    rewrite (filter_insert_Permutation _ _ _ (t0, false)); [done| |done|done].
    rewrite lookup_zip_with, Ht0; simpl. by rewrite Hfalse.
  - rewrite zip_with_app by done. simpl.
    rewrite filter_app, fmap_app. simpl.
    by rewrite <- Permutation_cons_append.
Qed.

Lemma add_faces_live pts i es :
  ∀ st st',
    wf st → add_faces pts i es st = Ok st' →
    live st' ≡ₚ ((λ e, IVec3 i (ey e) (ex e)) <$> es) ++ live st.
Proof.
  induction es as [|e es IH]; intros st st' Hwf Hrun; simpl in Hrun.
  - by injection Hrun as <-.
  - apply bind_Ok in Hrun as (st1 & Hadd & Hrun).
    rewrite (IH st1 st'); [|by eapply AddTri_wf|done].
    rewrite (AddTri_live _ _ _ _ _ _ Hwf Hadd). simpl.
    by rewrite Permutation_middle.
Qed.

(** The loop over the half edges does not end when the set holds an edge
    from a vertex to itself. *)
Lemma horizon_loop_UB pts i work :
  ∀ cur st,
    (∃ l, l ∈ work ∧ l ∈ cur ∧ ex l = ey l) →
    ∃ f, horizon pts i work cur st = UB f.
Proof.
  induction work as [|e work IH]; intros cur st (l & Hw & Hc & Hl).
  - by apply elem_of_nil in Hw.
  - simpl. fold (rev_edge e).
    assert (rev_edge l = l) as Hrl by (by apply rev_edge_fixed).
    case_bool_decide as Hin.
    + case_bool_decide as Hfix; [by eexists|].
      assert (l ≠ e) as Hne by (intros ->; done).
      apply elem_of_cons in Hw as [?|Hw]; [done|].
      case_bool_decide as Hr.
      * apply IH. exists l. split; [done|]. split; [|done].
        apply elem_of_us_erase. split; [done|].
        intros Heq. apply Hne. apply rev_edge_inj. by rewrite Hrl.
      * destruct (AddTri pts (ex e) (ey e) i st) as [st1|f]; simpl;
          [|by eexists].
        apply IH. by exists l.
    + apply elem_of_cons in Hw as [->|Hw]; [done|].
      apply IH. by exists l.
Qed.

End OrderGeneric.

Section OrderIndependent.
Context {F D : Type} `{!FloatOps F D}.
Variables U1 U2 : UnorderedSet.
Implicit Types (st : FaceTable F) (pts : list (vec3 F)).

Lemma scan_no_loops_of_run pts precision i st st1 S r :
  @scan F D _ U1 pts precision i (st, []) = Ok (st1, S) →
  horizon pts i S S st1 = Ok r →
  ∀ e, e ∈ S → ex e ≠ ey e.
Proof.
  intros _ Hhor e He Hloop.
  destruct (horizon_loop_UB pts i S S st1) as [f Hf]; [by exists e|].
  congruence.
Qed.

Lemma add_point_sim pts precision a b c d i st1 st2 st1' h1' :
  @reachable F D _ U1 pts precision st1 →
  @reachable F D _ U2 pts precision st2 →
  live st1 ≡ₚ live st2 →
  0 ≤ i < Z.of_nat (length pts) →
  @add_point F D _ U1 pts precision a b c d i (st1, []) = Ok (st1', h1') →
  ∃ st2',
    @add_point F D _ U2 pts precision a b c d i (st2, []) = Ok (st2', []) ∧
    h1' = [] ∧ live st1' ≡ₚ live st2'.
Proof.
  intros Hr1 Hr2 Hlive Hi Hrun. unfold add_point in *.
  case_bool_decide as Hseed.
  { injection Hrun as <- <-. by exists st2. }
  apply bind_Ok in Hrun as ([s1 S1] & Hscan1 & Hrun).
  apply bind_Ok in Hrun as ([s1' cur1] & Hhor1 & Hrun).
  injection Hrun as <- <-.
  destruct (@scan_total F D _ U2 pts precision i st2 []
              (reachable_wf _ _ _ Hr2) Hi) as [[s2 S2] Hscan2].
  rewrite Hscan2; simpl.
  pose proof (@scan_live F D _ U1 _ _ _ _ _ _ _ Hr1 Hi Hscan1) as Hl1.
  pose proof (@scan_live F D _ U2 _ _ _ _ _ _ _ Hr2 Hi Hscan2) as Hl2.
  pose proof (@scan_edges F D _ U1 _ _ _ _ _ _ Hr1 Hi Hscan1) as [Hnd1 Hin1].
  pose proof (@scan_edges F D _ U2 _ _ _ _ _ _ Hr2 Hi Hscan2) as [Hnd2 Hin2].
  assert (∀ e, e ∈ S1 ↔ e ∈ S2) as HS.
  { intros e. rewrite Hin1, Hin2. by setoid_rewrite Hlive. }
  assert (S1 ≡ₚ S2) as HSp by (by apply NoDup_Permutation).
  pose proof (scan_no_loops_of_run _ _ _ _ _ _ _ Hscan1 Hhor1) as Hloop1.
  assert (∀ e, e ∈ S2 → ex e ≠ ey e) as Hloop2.
  { intros e He. apply Hloop1. by apply HS. }
  destruct (@horizon_total F D _ U1 pts precision i st1 s1 S1
              Hr1 Hscan1 Hloop1) as (s1'' & cur1' & Hhor1' & Hadd1).
  rewrite Hhor1 in Hhor1'. injection Hhor1' as <- <-.
  destruct (@horizon_total F D _ U2 pts precision i st2 s2 S2
              Hr2 Hscan2 Hloop2) as (s2' & cur2 & Hhor2 & Hadd2).
  rewrite Hhor2; simpl. exists s2'. do 2 (split; [done|]).
  pose proof (scan_reachable _ _ _ _ _ _ _ Hr1 Hscan1) as Hw1%reachable_wf.
  pose proof (scan_reachable _ _ _ _ _ _ _ Hr2 Hscan2) as Hw2%reachable_wf.
  rewrite (add_faces_live _ _ _ _ _ Hw1 Hadd1).
  rewrite (add_faces_live _ _ _ _ _ Hw2 Hadd2).
  rewrite Hl1, Hl2, Hlive.
  apply Permutation_app; [|done]. apply fmap_Permutation.
  unfold horizon_edges.
  rewrite (list_filter_iff (λ e, rev_edge e ∉ S1) (λ e, rev_edge e ∉ S2))
    by (intros e; by rewrite HS).
  by rewrite HSp.
Qed.

(** X20 — the result does not depend on the order in which the hash set is
    traversed: when [Hull] returns with one implementation of the set, it
    returns with every other, and the two results hold the same triangles,
    each as many times, in a possibly different order. *)
Theorem Hull_order_independent pts precision out1 :
  @Hull F D _ U1 pts precision = Ok out1 →
  ∃ out2, @Hull F D _ U2 pts precision = Ok out2 ∧ out1 ≡ₚ out2.
Proof.
  intros Hrun.
  destruct (decide (Z.of_nat (length pts) < 4)) as [Hlen|Hlen].
  { rewrite Hull_short in Hrun by done. injection Hrun as <-.
    exists []. split; [by apply Hull_short | done]. }
  apply Hull_inv in Hrun as [[Htb ->] | (st1 & Htb & ->)].
  - exists []. split; [|done].
    unfold HullTable in Htb. rewrite bool_decide_eq_false_2 in Htb by done.
    apply bind_Ok in Htb as (sd & Hseed & Htb).
    destruct sd as [[[[a b] c] d]|].
    + apply bind_Ok in Htb as (st1 & _ & Htb).
      apply bind_Ok in Htb as (st2 & _ & Htb).
      apply bind_Ok in Htb as (st3 & _ & Htb).
      apply bind_Ok in Htb as (st4 & _ & Htb).
      apply bind_Ok in Htb as ([st5 h] & _ & Htb).
      discriminate.
    + apply Hull_coplanar; [lia | done].
  - apply HullTable_inv in Htb
      as (a & b & c & d & t1 & t2 & t3 & t4 & h & _ & Hseed &
          H1 & H2 & H3 & H4 & Hloop).
    assert (@reachable F D _ U1 pts precision t4) as Hr1.
    { do 4 (eapply reach_add; [|eassumption]). apply reach_empty. }
    assert (@reachable F D _ U2 pts precision t4) as Hr2.
    { do 4 (eapply reach_add; [|eassumption]). apply reach_empty. }
    destruct (for_loop_sim
                (λ _ (s1 s2 : FaceTable F * list ivec2),
                   @reachable F D _ U1 pts precision s1.1 ∧
                   @reachable F D _ U2 pts precision s2.1 ∧
                   s1.2 = [] ∧ s2.2 = [] ∧ live s1.1 ≡ₚ live s2.1)
                (@add_point F D _ U1 pts precision a b c d)
                (@add_point F D _ U2 pts precision a b c d)
                (length pts) 0 (t4, []) (t4, []) (st1, h))
      as ([st2 h2] & Hloop2 & _ & _ & _ & _ & Hlive); [done| |done|].
    + intros k [u1 g1] [u2 g2] [u1' g1'] Hk (Hu1 & Hu2 & Hg1 & Hg2 & Hl)
        Hstep; simpl in *. subst g1 g2.
      destruct (add_point_sim pts precision a b c d k u1 u2 u1' g1'
                  Hu1 Hu2 Hl ltac:(lia) Hstep) as (u2' & Hstep2 & -> & Hl').
      exists (u2', []). split; [done|]. simpl.
      split; [by eapply add_point_reachable|].
      split; [by eapply add_point_reachable|]. done.
    + simpl in Hlive. exists (live st2). split; [|done].
      apply Hull_live. unfold HullTable.
      rewrite bool_decide_eq_false_2 by done.
      rewrite Hseed; simpl. rewrite H1; simpl. rewrite H2; simpl.
      rewrite H3; simpl. rewrite H4; simpl. by rewrite Hloop2.
Qed.

End OrderIndependent.

(** ** Exact arithmetic: moving the points *)




Section Translate.
Import Exact.
Context `{!UnorderedSet}.
#[local] Open Scope R_scope.
Implicit Types (v a b c p q n : vec3 R) (pts rest : list (vec3 R)).
Implicit Types (st : FaceTable R) (pl : vec4 R).

















End Translate.

(** ** Exact arithmetic: a negative tolerance *)

Section NegativeTolerance.
Import Exact.
Context `{!UnorderedSet}.
Implicit Types (pts rest : list (vec3 R)) (st : FaceTable R).



End NegativeTolerance.


(** ** The further properties at concrete inputs *)

(** The seed of the unit tetrahedron, in exact arithmetic. *)

Section ExactEvaluation.
Import Exact ExactInputs.
#[local] Open Scope R_scope.







End ExactEvaluation.

(** The theorems above at inputs in IEEE arithmetic. *)

Section ExtraWitnesses.
Import IEEE Inputs.

Lemma IVec2Hash_collides_witness :
  IVec2Hash (IVec2 5 7) = 458757 ∧
  IVec2Hash (IVec2 458757 0) = IVec2Hash (IVec2 5 7).
Proof. apply (IVec2Hash_collides 5 7); lia. Defined.

Lemma NonCoplanar_first_witness :
  NonCoplanar tetra4
    (PlaneOfPts (pt 0 0 0 0) (pt 0 4 0 0) (pt 0 0 4 0)) quarter
  = (3, false) ∧
  ∃ pd, vget tetra4 3 = Ok pd ∧
        d_gt (d_abs (DistanceToPlane pd
                       (PlaneOfPts (pt 0 0 0 0) (pt 0 4 0 0) (pt 0 0 4 0))))
             quarter = true ∧
        ∀ j p, 0 ≤ j < 3 → vget tetra4 j = Ok p →
               d_gt (d_abs (DistanceToPlane p
                              (PlaneOfPts (pt 0 0 0 0) (pt 0 4 0 0)
                                          (pt 0 0 4 0))))
                    quarter = false.
Proof.
  split; [vm_compute; reflexivity|].
  destruct (NonCoplanar_first _ tetra4
              (PlaneOfPts (pt 0 0 0 0) (pt 0 4 0 0) (pt 0 0 4 0)) quarter
              3 false) as [(Hd & _)|(pd & Hpd & Hoff & _ & Hbefore)].
  - vm_compute; reflexivity.
  - discriminate Hd.
  - by exists pd.
Defined.

Lemma NonCollinearTriple_indices_witness :
  NonCollinearTriple [pt 0 1 1 1] quarter = UB (OutOfBounds 1) ∧
  ∃ t, NonCollinearTriple notch quarter = Ok t ∧
       (t = IVec3 (-1) (-1) (-1)
        ∨ (ix t = 0 ∧ 1 ≤ iy t < 5 ∧ 1 ≤ iz t < 5)).
Proof.
  destruct (NonCollinearTriple_indices _ [pt 0 1 1 1] quarter)
    as (_ & H1 & _).
  destruct (NonCollinearTriple_indices _ notch quarter) as (_ & _ & H2).
  split; [by apply H1|]. apply H2. vm_compute; discriminate.
Defined.

Lemma Hull_safe_but_sentinel_witness :
  (∃ out, Hull notch quarter = Ok out)
  ∨ (4 ≤ Z.of_nat (length notch) ∧
     NonCollinearTriple notch quarter = Ok (IVec3 (-1) (-1) (-1)) ∧
     Hull notch quarter = UB (OutOfBounds (-1))).
Proof.
  apply (Hull_safe_but_sentinel fifo_set notch quarter).
  vm_compute; reflexivity.
Defined.

Lemma Hull_nan_tolerance_witness :
  NonCollinearTriple tetra4 S754_nan = Ok (IVec3 (-1) (-1) (-1)) ∧
  Hull tetra4 S754_nan = UB (OutOfBounds (-1)).
Proof.
  apply (Hull_nan_tolerance fifo_set tetra4). vm_compute; discriminate.
Defined.

Lemma Hull_order_independent_witness :
  @Hull _ _ ops fifo_set notch quarter
  = Ok [IVec3 2 1 0; IVec3 4 0 1; IVec3 4 1 3; IVec3 2 3 1; IVec3 4 2 0;
        IVec3 4 3 2] ∧
  @Hull _ _ ops lifo_set notch quarter
  = Ok [IVec3 2 1 0; IVec3 4 2 0; IVec3 4 3 2; IVec3 2 3 1; IVec3 4 0 1;
        IVec3 4 1 3] ∧
  [IVec3 2 1 0; IVec3 4 0 1; IVec3 4 1 3; IVec3 2 3 1; IVec3 4 2 0;
   IVec3 4 3 2]
  ≡ₚ [IVec3 2 1 0; IVec3 4 2 0; IVec3 4 3 2; IVec3 2 3 1; IVec3 4 0 1;
      IVec3 4 1 3].
Proof.
  split; [vm_compute; reflexivity|]. split; [vm_compute; reflexivity|].
  destruct (Hull_order_independent fifo_set lifo_set notch quarter
              [IVec3 2 1 0; IVec3 4 0 1; IVec3 4 1 3; IVec3 2 3 1;
               IVec3 4 2 0; IVec3 4 3 2]) as (out2 & H2 & Hperm).
  - vm_compute; reflexivity.
  - vm_compute in H2. injection H2 as <-. exact Hperm.
Defined.

End ExtraWitnesses.

Section UnseenWitness.
Import IEEE Inputs InnerPoint.

Lemma add_point_unseen_witness :
  ∃ st4,
    reachable inside5 quarter st4 ∧
    add_point inside5 quarter 0 1 2 3 4 (st4, []) = Ok (st4, []) ∧
    Hull inside5 quarter = Hull tetra4 quarter.
Proof.
  assert (∃ st4, reachable inside5 quarter st4 ∧
                 kept st4 = [true; true; true; true] ∧
                 planes st4
                 = [PlaneOfPts (pt 0 0 0 0) (pt 0 4 0 0) (pt 0 0 4 0);
                    PlaneOfPts (pt 0 0 0 4) (pt 0 4 0 0) (pt 0 0 0 0);
                    PlaneOfPts (pt 0 0 4 0) (pt 0 0 0 4) (pt 0 0 0 0);
                    PlaneOfPts (pt 0 4 0 0) (pt 0 0 0 4) (pt 0 0 4 0)])
    as (st4 & Hr & Hk4 & Hp4).
  { eexists. split; [|split].
    - eapply (seed_faces_reachable inside5 quarter 0 1 2 3);
        vm_compute; reflexivity.
    - reflexivity.
    - vm_compute; reflexivity. }
  exists st4. split; [exact Hr|]. split; [|vm_compute; reflexivity].
  apply (add_point_unseen inside5 quarter 0 1 2 3 4 st4 Hr).
  - vm_compute. split; [discriminate | reflexivity].
  - intros j (p & pl & Hkj & Hp & Hpl & Hgt).
    rewrite Hk4 in Hkj. rewrite Hp4 in Hpl.
    pose proof (vget_range _ _ _ Hkj) as Hj. simpl in Hj.
    vm_compute in Hp. injection Hp as <-.
    assert (j = 0 ∨ j = 1 ∨ j = 2 ∨ j = 3) as [->|[->|[->| ->]]] by lia;
      vm_compute in Hpl; injection Hpl as <-;
      vm_compute in Hgt; discriminate.
Defined.

End UnseenWitness.

Lemma IVec2Hash_separates_witness :
  IVec2Hash (IVec2 1 2) ≠ IVec2Hash (IVec2 2 1) ∧
  IVec2Hash (IVec2 7 40000) ≠ IVec2Hash (IVec2 7 40001).
Proof.
  split.
  - apply (IVec2Hash_separates (IVec2 1 2) (IVec2 2 1)); simpl; try lia.
    discriminate.
  - apply (IVec2Hash_separates (IVec2 7 40000) (IVec2 7 40001)); simpl;
      try lia.
    discriminate.
Defined.

(** The theorems above at inputs in exact arithmetic. *)

Section ExactWitnesses.
Import Exact ExactInputs.
#[local] Open Scope R_scope.









End ExactWitnesses.
